(** * ContentLink: lifecycle of the content-link controller

    A shallow embedding of [src/components/ContentLink/index.tsx].

    The component owns three closures and one mutable slot:
    - the mount effect [useEffect(() => { ... }, [router])], which calls
      [createController], stores the result in [controllerRef.current] and
      returns a cleanup closure;
    - that cleanup closure, which calls [controller.dispose()] on the
      controller it captured and clears the slot;
    - the path effect [useEffect(() => { ... }, [pathname])], which calls
      [controllerRef.current?.setCurrentPath(pathname)];
    - the [onNavigateTo] handler handed to the controller, which calls
      [router.push(path)] on the router it captured.

    The closures are embedded as programs of a small state monad over the
    part of the heap they touch.  The collaborators (the controller library
    and the host router) are opaque: a call to one of them is recorded in a
    chronological trace.  The effect lifecycle of the host framework (which
    closure runs when) is the second layer, [schedule] and [step]. *)

From Stdlib Require Import List String Arith Bool Lia.
Import ListNotations.
Open Scope string_scope.
Open Scope list_scope.

(** ** Collaborators *)

(** Object identity of the value returned by [useRouter()]. *)
Definition Router := nat.

(** Object identity of a value returned by [createController]. *)
Definition Controller := nat.

(** The arrow function [(path) => { router.push(path); }], defunctionalised:
    a closure is the router it captured. *)
Inductive Handler : Type :=
| NavigateClosure (router : Router).

(** The object literal passed to [createController]. *)
Record Config : Type := mkConfig { onNavigateTo : Handler }.

(** The configuration the first effect passes when it runs with router [r]. *)
Definition navigating (r : Router) : Config := mkConfig (NavigateClosure r).

(** The arrow function
    [() => { controller.dispose(); controllerRef.current = null; }],
    defunctionalised: a closure is the [controller] constant it captured. *)
Inductive Cleanup : Type :=
| CleanupClosure (controller : Controller).

(** Calls made to the collaborators.  [CreateController c cfg] records a call
    [createController(cfg)] that returned the object [c]. *)
Inductive Call : Type :=
| CreateController (c : Controller) (cfg : Config)
| EnableClickToEdit (c : Controller) (scrollToNearestTarget : bool)
| SetCurrentPath (c : Controller) (path : string)
| Dispose (c : Controller)
| RouterPush (r : Router) (path : string).

(** ** The heap the closures act on *)

Record Store : Type := mkStore {
  controllerRef : option Controller;  (* controllerRef.current *)
  nextController : nat;               (* identity of the next allocated controller *)
  trace : list Call                   (* calls made so far, oldest first *)
}.

(** ** A state monad for the closures' bodies *)

Definition M (A : Type) : Type := Store -> A * Store.

Definition ret {A : Type} (a : A) : M A := fun st => (a, st).

Definition bind {A B : Type} (m : M A) (k : A -> M B) : M B :=
  fun st => let (a, st') := m st in k a st'.

Declare Scope monad_scope.
Delimit Scope monad_scope with monad.
Notation "x <- m ;; k" := (bind m (fun x => k))
  (at level 61, m at next level, right associativity) : monad_scope.
Notation "m ;; k" := (bind m (fun _ => k))
  (at level 61, right associativity) : monad_scope.
Open Scope monad_scope.

Definition exec {A : Type} (m : M A) (st : Store) : Store := snd (m st).

(** Record a call to a collaborator. *)
Definition call (c : Call) : M unit :=
  fun st => (tt, mkStore (controllerRef st) (nextController st) (trace st ++ [c])).

(** [createController(cfg)]: the library allocates a new controller object. *)
Definition createController (cfg : Config) : M Controller :=
  fun st =>
    let c := nextController st in
    (c, mkStore (controllerRef st) (S c) (trace st ++ [CreateController c cfg])).

(** [controllerRef.current = v] *)
Definition set_controllerRef (v : option Controller) : M unit :=
  fun st => (tt, mkStore v (nextController st) (trace st)).

(** [controllerRef.current] *)
Definition get_controllerRef : M (option Controller) :=
  fun st => (controllerRef st, st).

(** ** The component's closures *)

(** Body of the first effect, run with the [router] of the render that
    scheduled it; the result is the cleanup it returns. *)
Definition mountEffect (router : Router) : M Cleanup :=
  controller <- createController (mkConfig (NavigateClosure router)) ;;
  set_controllerRef (Some controller) ;;
  ret (CleanupClosure controller).

(** Body of the cleanup returned by the first effect. *)
Definition runCleanup (k : Cleanup) : M unit :=
  match k with
  | CleanupClosure controller =>
      call (Dispose controller) ;;
      set_controllerRef None
  end.

(** Body of the second effect: [controllerRef.current?.setCurrentPath(pathname)]. *)
Definition pathEffect (pathname : string) : M unit :=
  current <- get_controllerRef ;;
  match current with
  | Some controller => call (SetCurrentPath controller pathname)
  | None => ret tt
  end.

(** Body of the [onNavigateTo] handler. *)
Definition applyHandler (h : Handler) (path : string) : M unit :=
  match h with
  | NavigateClosure router => call (RouterPush router path)
  end.

(** ** The effect lifecycle *)

(** State of the page: what the routing hooks currently return, the
    bookkeeping the framework keeps for a mounted instance, and the heap. *)
Record State : Type := mkState {
  router : Router;                   (* what useRouter() returns *)
  pathname : string;                 (* what usePathname() returns *)
  deps : option (Router * string);   (* mounted: dependencies [router] and [pathname] of the last commit *)
  cleanup : option Cleanup;          (* cleanup returned by the last run of the first effect, not yet called *)
  store : Store
}.

Inductive Event : Type :=
| Mount                                    (* the component is attached to the page *)
| Unmount                                  (* the component is removed from the page *)
| Update (r : Router) (p : string)         (* the hooks now return r and p; a mounted component re-renders *)
| Navigate (c : Controller) (path : string). (* controller c invokes the handler it was configured with *)

(** One closure run to completion. *)
Inductive Callback : Type :=
| RunCleanup
| RunMountEffect (r : Router)
| RunPathEffect (p : string)
| RunHandler (h : Handler) (path : string).

Definition with_store (s : State) (st : Store) : State :=
  mkState (router s) (pathname s) (deps s) (cleanup s) st.

Definition run_callback (s : State) (cb : Callback) : State :=
  match cb with
  | RunCleanup =>
      match cleanup s with
      | Some k =>
          mkState (router s) (pathname s) (deps s) None (exec (runCleanup k) (store s))
      | None => s
      end
  | RunMountEffect r =>
      let (k, st) := mountEffect r (store s) in
      mkState (router s) (pathname s) (deps s) (Some k) st
  | RunPathEffect p => with_store s (exec (pathEffect p) (store s))
  | RunHandler h path => with_store s (exec (applyHandler h path) (store s))
  end.

Definition run_callbacks (cbs : list Callback) (s : State) : State :=
  fold_left run_callback cbs s.

(** The configuration a controller was constructed with. *)
Fixpoint config_of (c : Controller) (tr : list Call) : option Config :=
  match tr with
  | [] => None
  | CreateController c' cfg :: tr' =>
      if Nat.eqb c c' then Some cfg else config_of c tr'
  | _ :: tr' => config_of c tr'
  end.

(** Which closures the framework runs for an event, in order; [None] when the
    event cannot happen in that state.  On mount both effects run in
    declaration order.  On a re-render an effect runs again when its
    dependency differs from the one of the previous commit; the cleanups of
    the effects that run again are called before any of their bodies.  On
    unmount the pending cleanup is called. *)
Definition schedule (e : Event) (s : State) : option (list Callback) :=
  match e with
  | Mount =>
      match deps s with
      | None => Some [RunMountEffect (router s); RunPathEffect (pathname s)]
      | Some _ => None
      end
  | Unmount =>
      match deps s with
      | Some _ => Some [RunCleanup]
      | None => None
      end
  | Update r p =>
      match deps s with
      | None => Some []
      | Some (r0, p0) =>
          Some ((if Nat.eqb r r0 then [] else [RunCleanup; RunMountEffect r])
                ++ (if String.eqb p p0 then [] else [RunPathEffect p]))
      end
  | Navigate c path =>
      match config_of c (trace (store s)) with
      | Some cfg => Some [RunHandler (onNavigateTo cfg) path]
      | None => None
      end
  end.

(** What the framework and the host record once the closures have run. *)
Definition settle (e : Event) (s : State) : State :=
  match e with
  | Mount => mkState (router s) (pathname s) (Some (router s, pathname s)) (cleanup s) (store s)
  | Unmount => mkState (router s) (pathname s) None (cleanup s) (store s)
  | Update r p =>
      mkState r p (match deps s with Some _ => Some (r, p) | None => None end)
              (cleanup s) (store s)
  | Navigate _ _ => s
  end.

Definition step (s : State) (e : Event) : option State :=
  match schedule e s with
  | Some cbs => Some (settle e (run_callbacks cbs s))
  | None => None
  end.

Fixpoint run (es : list Event) (s : State) : option State :=
  match es with
  | [] => Some s
  | e :: es' =>
      match step s e with
      | Some s' => run es' s'
      | None => None
      end
  end.

(** The page before the component is first mounted. *)
Definition init (r : Router) (p : string) : State :=
  mkState r p None None (mkStore None 0 []).

(** ** Reading a trace *)

Definition is_create (c : Controller) (x : Call) : bool :=
  match x with CreateController c' _ => Nat.eqb c c' | _ => false end.

Definition is_dispose (c : Controller) (x : Call) : bool :=
  match x with Dispose c' => Nat.eqb c c' | _ => false end.

Definition is_setCurrentPath (x : Call) : bool :=
  match x with SetCurrentPath _ _ => true | _ => false end.

Definition is_lifecycle (x : Call) : bool :=
  match x with CreateController _ _ | Dispose _ => true | _ => false end.

(** Number of [createController] calls that returned [c]. *)
Definition constructed (c : Controller) (tr : list Call) : nat :=
  List.length (filter (is_create c) tr).

(** Number of [dispose] calls on [c]. *)
Definition disposed (c : Controller) (tr : list Call) : nat :=
  List.length (filter (is_dispose c) tr).

(** A controller is live when it has been constructed and not disposed. *)
Definition live (c : Controller) (tr : list Call) : Prop :=
  (exists cfg, In (CreateController c cfg) tr) /\ ~ In (Dispose c) tr.

(** The paths reported to [c] with [setCurrentPath], oldest first. *)
Fixpoint reported (c : Controller) (tr : list Call) : list string :=
  match tr with
  | [] => []
  | SetCurrentPath c' p :: tr' =>
      if Nat.eqb c c' then p :: reported c tr' else reported c tr'
  | _ :: tr' => reported c tr'
  end.

(** The controller returned by the most recent [createController] call. *)
Definition last_constructed (tr : list Call) : option Controller :=
  fold_left (fun acc x => match x with CreateController c _ => Some c | _ => acc end)
            tr None.

(** What must hold of the calls made before a call [x]. *)
Definition precondition (pre : list Call) (x : Call) : Prop :=
  match x with
  | CreateController c _ => constructed c pre = 0
  | EnableClickToEdit c _ | SetCurrentPath c _ | Dispose c =>
      live c pre /\ last_constructed pre = Some c
  | RouterPush r _ =>
      exists c, In (CreateController c (mkConfig (NavigateClosure r))) pre
  end.

(** Every call of the trace meets its precondition at the time it is made. *)
Definition ordered (tr : list Call) : Prop :=
  forall pre x post, tr = pre ++ x :: post -> precondition pre x.

Definition holds (slot : option Controller) (c : Controller) : nat :=
  match slot with
  | Some c' => if Nat.eqb c c' then 1 else 0
  | None => 0
  end.

(** ** Invariants *)

(** Of the heap, between any two closures. *)
Record StoreInv (st : Store) : Prop := mkStoreInv {
  inv_fresh : forall c, nextController st <= c -> constructed c (trace st) = 0;
  inv_once : forall c, constructed c (trace st) <= 1;
  inv_balance : forall c,
      disposed c (trace st) + holds (controllerRef st) c = constructed c (trace st);
  inv_last : forall c,
      controllerRef st = Some c -> last_constructed (trace st) = Some c;
  inv_ordered : ordered (trace st)
}.

(** The pending cleanup captured the controller the slot holds. *)
Definition cleanup_agrees (s : State) : Prop :=
  match cleanup s with
  | Some (CleanupClosure c) => controllerRef (store s) = Some c
  | None => controllerRef (store s) = None
  end.

(** Between any two closures. *)
Definition MidInv (s : State) : Prop :=
  StoreInv (store s) /\ cleanup_agrees s.

(** Between any two events. *)
Definition Inv (s : State) : Prop :=
  MidInv s /\
  match deps s with
  | None => cleanup s = None
  | Some (r, p) =>
      r = router s /\ p = pathname s /\
      exists c, cleanup s = Some (CleanupClosure c) /\
                config_of c (trace (store s)) = Some (mkConfig (NavigateClosure r))
  end.

(** What the slot has to do with the live controllers. *)
Definition slot_invariant (st : Store) : Prop :=
  (forall c, live c (trace st) <-> controllerRef st = Some c) /\
  (forall c, controllerRef st = Some c -> last_constructed (trace st) = Some c) /\
  (forall c1 c2, live c1 (trace st) -> live c2 (trace st) -> c1 = c2).

(** An event that leaves the pathname [p] as it is. *)
Definition keeps_pathname (p : string) (e : Event) : Prop :=
  match e with
  | Update _ p' => p' = p
  | _ => True
  end.

(** Controller [c] exists and has not been told any path, in a page whose
    pathname is [p]. *)
Definition untold (c : Controller) (p : string) (s : State) : Prop :=
  Inv s /\ pathname s = p /\ c < nextController (store s) /\
  reported c (trace (store s)) = [].

(** The events as a relation, each with the calls it makes. *)
Inductive transition (s : State) : Event -> State -> Prop :=
| T_mount :
    deps s = None ->
    transition s Mount
      (mkState (router s) (pathname s) (Some (router s, pathname s))
         (Some (CleanupClosure (nextController (store s))))
         (mkStore (Some (nextController (store s))) (S (nextController (store s)))
            (trace (store s)
             ++ [CreateController (nextController (store s)) (navigating (router s));
                 SetCurrentPath (nextController (store s)) (pathname s)])))
| T_unmount (c : Controller) :
    deps s = Some (router s, pathname s) ->
    cleanup s = Some (CleanupClosure c) ->
    controllerRef (store s) = Some c ->
    transition s Unmount
      (mkState (router s) (pathname s) None None
         (mkStore None (nextController (store s)) (trace (store s) ++ [Dispose c])))
| T_update_unmounted (r : Router) (p : string) :
    deps s = None -> cleanup s = None -> controllerRef (store s) = None ->
    transition s (Update r p) (mkState r p None None (store s))
| T_update_mounted (c : Controller) (r : Router) (p : string) :
    deps s = Some (router s, pathname s) ->
    cleanup s = Some (CleanupClosure c) ->
    controllerRef (store s) = Some c ->
    transition s (Update r p)
      (mkState r p (Some (r, p))
         (Some (CleanupClosure
                  (if Nat.eqb r (router s) then c else nextController (store s))))
         (mkStore
            (Some (if Nat.eqb r (router s) then c else nextController (store s)))
            (if Nat.eqb r (router s)
             then nextController (store s) else S (nextController (store s)))
            (trace (store s)
             ++ (if Nat.eqb r (router s) then []
                 else [Dispose c;
                       CreateController (nextController (store s)) (navigating r)])
             ++ (if String.eqb p (pathname s) then []
                 else [SetCurrentPath
                         (if Nat.eqb r (router s) then c else nextController (store s))
                         p]))))
| T_navigate (c : Controller) (r : Router) (path : string) :
    config_of c (trace (store s)) = Some (navigating r) ->
    transition s (Navigate c path)
      (mkState (router s) (pathname s) (deps s) (cleanup s)
         (mkStore (controllerRef (store s)) (nextController (store s))
            (trace (store s) ++ [RouterPush r path]))).

(** No two neighbours of the list are equal. *)
Fixpoint distinct_adjacent (l : list string) : Prop :=
  match l with
  | a :: (b :: _) as t => a <> b /\ distinct_adjacent t
  | _ => True
  end.

(** The paths passed to [router.push], oldest first. *)
Fixpoint pushes (tr : list Call) : list string :=
  match tr with
  | [] => []
  | RouterPush _ path :: tr' => path :: pushes tr'
  | _ :: tr' => pushes tr'
  end.

(** The paths of the navigation requests among the events, oldest first. *)
Fixpoint requests (es : list Event) : list string :=
  match es with
  | [] => []
  | Navigate _ path :: es' => path :: requests es'
  | _ :: es' => requests es'
  end.

(** What the controllers have been told, measured against the pathname. *)
Definition Synced (s : State) : Prop :=
  forall c,
    distinct_adjacent (reported c (trace (store s))) /\
    (controllerRef (store s) = Some c ->
     forall l p, reported c (trace (store s)) = l ++ [p] -> p = pathname s).

Example mount_about_unmount :
  option_map (fun s => trace (store s))
             (run [Mount; Update 7 "/about"; Unmount] (init 7 "/"))
  = Some [CreateController 0 (mkConfig (NavigateClosure 7));
          SetCurrentPath 0 "/"; SetCurrentPath 0 "/about"; Dispose 0].
Proof. reflexivity. Qed.

(** ** Counting over a growing trace *)

Section TraceLemmas.

Variable c : Controller.

Lemma constructed_snoc (tr : list Call) (x : Call) :
  constructed c (tr ++ [x]) = constructed c tr + (if is_create c x then 1 else 0).
Proof.
  unfold constructed. rewrite filter_app, length_app. simpl.
  destruct (is_create c x); reflexivity.
Qed.

Lemma disposed_snoc (tr : list Call) (x : Call) :
  disposed c (tr ++ [x]) = disposed c tr + (if is_dispose c x then 1 else 0).
Proof.
  unfold disposed. rewrite filter_app, length_app. simpl.
  destruct (is_dispose c x); reflexivity.
Qed.

Lemma constructed_In (tr : list Call) :
  1 <= constructed c tr <-> exists cfg, In (CreateController c cfg) tr.
Proof.
  unfold constructed. induction tr as [|x tr IH]; simpl.
  - split; [lia | intros [_ []]].
  - destruct x as [c' cfg'| | | |]; simpl;
      try (rewrite IH; split; intros [cfg H]; exists cfg;
           [right; exact H | destruct H as [H|H]; [discriminate H | exact H]]).
    destruct (Nat.eqb_spec c c') as [->|Hne]; simpl.
    + split; [intros _; exists cfg'; left; reflexivity | lia].
    + rewrite IH. split; intros [cfg H]; exists cfg.
      * right; exact H.
      * destruct H as [H|H]; [injection H as E _; congruence | exact H].
Qed.

Lemma disposed_In (tr : list Call) :
  1 <= disposed c tr <-> In (Dispose c) tr.
Proof.
  unfold disposed. induction tr as [|x tr IH]; simpl.
  - split; [lia | intros []].
  - destruct x as [| | |c'|]; simpl;
      try (rewrite IH; split; intros H;
           [right; exact H | destruct H as [H|H]; [discriminate H | exact H]]).
    destruct (Nat.eqb_spec c c') as [->|Hne]; simpl.
    + split; [intros _; left; reflexivity | lia].
    + rewrite IH. split; intros H.
      * right; exact H.
      * destruct H as [H|H]; [injection H as E; congruence | exact H].
Qed.

Lemma live_counts (tr : list Call) :
  live c tr <-> 1 <= constructed c tr /\ disposed c tr = 0.
Proof.
  unfold live. rewrite <- constructed_In.
  assert (disposed c tr = 0 <-> ~ In (Dispose c) tr) as ->; [|reflexivity].
  rewrite <- disposed_In. lia.
Qed.

Lemma config_of_In (tr : list Call) (cfg : Config) :
  config_of c tr = Some cfg -> In (CreateController c cfg) tr.
Proof.
  induction tr as [|x tr IH]; simpl; [discriminate|].
  destruct x as [c' cfg'| | | |]; try (intros H; right; apply IH; exact H).
  destruct (Nat.eqb_spec c c') as [->|Hne].
  - intros [= ->]. left; reflexivity.
  - intros H; right; apply IH; exact H.
Qed.

Lemma config_of_None (tr : list Call) :
  config_of c tr = None <-> constructed c tr = 0.
Proof.
  unfold constructed. induction tr as [|x tr IH]; simpl; [tauto|].
  destruct x as [c' cfg'| | | |]; simpl; try exact IH.
  destruct (Nat.eqb c c'); simpl; [split; [discriminate | lia] | exact IH].
Qed.

Lemma config_of_snoc_old (tr : list Call) (x : Call) (cfg : Config) :
  config_of c tr = Some cfg -> config_of c (tr ++ [x]) = Some cfg.
Proof.
  induction tr as [|y tr IH]; simpl; [discriminate|].
  destruct y as [c' cfg'| | | |]; try exact IH.
  destruct (Nat.eqb c c'); [tauto | exact IH].
Qed.

Lemma config_of_snoc_new (tr : list Call) (cfg : Config) :
  constructed c tr = 0 ->
  config_of c (tr ++ [CreateController c cfg]) = Some cfg.
Proof.
  unfold constructed. induction tr as [|y tr IH]; simpl.
  - intros _. rewrite Nat.eqb_refl. reflexivity.
  - destruct y as [c' cfg'| | | |]; simpl; try exact IH.
    destruct (Nat.eqb c c'); simpl; [lia | exact IH].
Qed.

End TraceLemmas.

Lemma last_constructed_snoc (tr : list Call) (x : Call) :
  last_constructed (tr ++ [x]) =
  match x with CreateController c _ => Some c | _ => last_constructed tr end.
Proof. unfold last_constructed. rewrite fold_left_app. reflexivity. Qed.

Lemma ordered_nil : ordered [].
Proof. intros [|y pre] x post H; discriminate H. Qed.

Lemma ordered_snoc (tr : list Call) (x : Call) :
  ordered tr -> precondition tr x -> ordered (tr ++ [x]).
Proof.
  intros Htr Hx pre y post E.
  destruct post as [|z post] using rev_ind.
  - apply app_inj_tail in E as [-> ->]. exact Hx.
  - clear IHpost. change (pre ++ y :: post ++ [z]) with (pre ++ (y :: post) ++ [z]) in E.
    rewrite app_assoc in E. apply app_inj_tail in E as [E _].
    exact (Htr pre y post E).
Qed.

(** ** The closures, computed *)

Lemma mountEffect_eq (r : Router) (st : Store) :
  mountEffect r st =
  (CleanupClosure (nextController st),
   mkStore (Some (nextController st)) (S (nextController st))
           (trace st ++ [CreateController (nextController st)
                                          (mkConfig (NavigateClosure r))])).
Proof. reflexivity. Qed.

Lemma runCleanup_eq (c : Controller) (st : Store) :
  runCleanup (CleanupClosure c) st =
  (tt, mkStore None (nextController st) (trace st ++ [Dispose c])).
Proof. reflexivity. Qed.

Lemma pathEffect_eq (p : string) (st : Store) :
  pathEffect p st =
  match controllerRef st with
  | Some c => call (SetCurrentPath c p) st
  | None => (tt, st)
  end.
Proof. unfold pathEffect, bind, get_controllerRef. destruct (controllerRef st); reflexivity. Qed.

(** ** The closures keep the heap invariant *)

Lemma not_lifecycle (x : Call) (c : Controller) :
  is_lifecycle x = false -> is_create c x = false /\ is_dispose c x = false.
Proof. destruct x; simpl; intros H; try discriminate H; split; reflexivity. Qed.

Lemma slot_live (st : Store) (c : Controller) :
  StoreInv st -> controllerRef st = Some c -> live c (trace st).
Proof.
  intros I Hc. apply live_counts.
  pose proof (inv_balance st I c) as Hb. pose proof (inv_once st I c) as Ho.
  rewrite Hc in Hb. simpl in Hb. rewrite Nat.eqb_refl in Hb. lia.
Qed.

Lemma live_slot (st : Store) (c : Controller) :
  StoreInv st -> live c (trace st) -> controllerRef st = Some c.
Proof.
  intros I Hl. apply live_counts in Hl.
  pose proof (inv_balance st I c) as Hb.
  destruct (controllerRef st) as [c'|]; simpl in Hb; [|lia].
  destruct (Nat.eqb_spec c c') as [->|_]; [reflexivity | lia].
Qed.

Lemma StoreInv_init : StoreInv (mkStore None 0 []).
Proof.
  constructor; simpl.
  - reflexivity.
  - intros c. apply Nat.le_0_l.
  - reflexivity.
  - discriminate.
  - apply ordered_nil.
Qed.

Lemma StoreInv_call (st : Store) (x : Call) :
  StoreInv st -> is_lifecycle x = false -> precondition (trace st) x ->
  StoreInv (exec (call x) st).
Proof.
  intros I Hx Hpre. unfold exec, call; simpl.
  constructor; simpl.
  - intros c Hc. rewrite constructed_snoc.
    destruct (not_lifecycle x c Hx) as [-> _]. rewrite (inv_fresh st I c Hc). reflexivity.
  - intros c. rewrite constructed_snoc.
    destruct (not_lifecycle x c Hx) as [-> _]. pose proof (inv_once st I c). lia.
  - intros c. rewrite constructed_snoc, disposed_snoc.
    destruct (not_lifecycle x c Hx) as [-> ->]. pose proof (inv_balance st I c). lia.
  - intros c Hc. rewrite last_constructed_snoc.
    destruct x; try discriminate Hx; apply (inv_last st I c Hc).
  - apply ordered_snoc; [apply (inv_ordered st I) | exact Hpre].
Qed.

Lemma StoreInv_mountEffect (r : Router) (st : Store) :
  StoreInv st -> controllerRef st = None -> StoreInv (exec (mountEffect r) st).
Proof.
  intros I Hnone. unfold exec. rewrite mountEffect_eq. simpl.
  set (n := nextController st).
  assert (Hn : constructed n (trace st) = 0) by (apply (inv_fresh st I); unfold n; lia).
  constructor; simpl.
  - intros c Hc. rewrite constructed_snoc. simpl.
    destruct (Nat.eqb_spec c n); [lia|].
    rewrite (inv_fresh st I c) by (fold n; lia). reflexivity.
  - intros c. rewrite constructed_snoc. simpl.
    destruct (Nat.eqb_spec c n) as [->|_]; [lia|].
    pose proof (inv_once st I c). lia.
  - intros c. rewrite constructed_snoc, disposed_snoc. simpl.
    pose proof (inv_balance st I c) as Hb. rewrite Hnone in Hb. simpl in Hb.
    destruct (Nat.eqb c n); lia.
  - intros c [= <-]. rewrite last_constructed_snoc. reflexivity.
  - apply ordered_snoc; [apply (inv_ordered st I) | exact Hn].
Qed.

Lemma StoreInv_runCleanup (c : Controller) (st : Store) :
  StoreInv st -> controllerRef st = Some c ->
  StoreInv (exec (runCleanup (CleanupClosure c)) st).
Proof.
  intros I Hc. unfold exec. rewrite runCleanup_eq. simpl.
  constructor; simpl.
  - intros c0 H0. rewrite constructed_snoc. simpl.
    rewrite (inv_fresh st I c0 H0). reflexivity.
  - intros c0. rewrite constructed_snoc. simpl.
    pose proof (inv_once st I c0). lia.
  - intros c0. rewrite constructed_snoc, disposed_snoc. simpl.
    pose proof (inv_balance st I c0) as Hb. rewrite Hc in Hb. simpl in Hb.
    destruct (Nat.eqb c0 c); lia.
  - intros c0 H0. discriminate H0.
  - apply ordered_snoc; [apply (inv_ordered st I)|].
    split; [apply slot_live; assumption | apply (inv_last st I c Hc)].
Qed.

Lemma StoreInv_pathEffect (p : string) (st : Store) :
  StoreInv st -> StoreInv (exec (pathEffect p) st).
Proof.
  intros I. unfold exec. rewrite pathEffect_eq.
  destruct (controllerRef st) as [c|] eqn:Hc; [|exact I].
  apply (StoreInv_call st (SetCurrentPath c p) I); [reflexivity|].
  split; [apply slot_live; assumption | apply (inv_last st I c Hc)].
Qed.

Lemma StoreInv_applyHandler (c : Controller) (cfg : Config) (path : string) (st : Store) :
  StoreInv st -> config_of c (trace st) = Some cfg ->
  StoreInv (exec (applyHandler (onNavigateTo cfg) path) st).
Proof.
  intros I Hcfg. destruct cfg as [[r]]. simpl.
  apply (StoreInv_call st (RouterPush r path) I); [reflexivity|].
  exists c. apply config_of_In. exact Hcfg.
Qed.

(** ** One closure at a time *)

Lemma run_callback_frame (s : State) (cb : Callback) :
  router (run_callback s cb) = router s /\
  pathname (run_callback s cb) = pathname s /\
  deps (run_callback s cb) = deps s.
Proof.
  destruct cb; simpl; try (repeat split; reflexivity).
  destruct (cleanup s); repeat split; reflexivity.
Qed.

Lemma config_of_call (c : Controller) (cfg : Config) (x : Call) (st : Store) :
  config_of c (trace st) = Some cfg ->
  config_of c (trace (exec (call x) st)) = Some cfg.
Proof. apply config_of_snoc_old. Qed.

Lemma after_cleanup (s : State) :
  MidInv s ->
  MidInv (run_callback s RunCleanup) /\
  cleanup (run_callback s RunCleanup) = None.
Proof.
  intros [I A]. unfold cleanup_agrees in A. simpl.
  destruct (cleanup s) as [[c]|] eqn:Hk.
  - split; [|reflexivity]. split; simpl.
    + apply StoreInv_runCleanup; assumption.
    + reflexivity.
  - split; [|exact Hk]. split; [exact I|].
    unfold cleanup_agrees. rewrite Hk. exact A.
Qed.

Lemma after_mountEffect (s : State) (r : Router) :
  MidInv s -> cleanup s = None ->
  MidInv (run_callback s (RunMountEffect r)) /\
  cleanup (run_callback s (RunMountEffect r))
  = Some (CleanupClosure (nextController (store s))) /\
  config_of (nextController (store s))
            (trace (store (run_callback s (RunMountEffect r))))
  = Some (mkConfig (NavigateClosure r)).
Proof.
  intros [I A] Hk. unfold cleanup_agrees in A. rewrite Hk in A.
  pose proof (StoreInv_mountEffect r (store s) I A) as I'.
  unfold exec in I'. simpl. rewrite mountEffect_eq in *. simpl in *.
  split; [split; [exact I' | reflexivity]|].
  split; [reflexivity|].
  apply config_of_snoc_new. apply (inv_fresh _ I). lia.
Qed.

Lemma pathEffect_slot (p : string) (st : Store) :
  controllerRef (exec (pathEffect p) st) = controllerRef st.
Proof.
  unfold exec. rewrite pathEffect_eq. destruct (controllerRef st) eqn:E; simpl; congruence.
Qed.

Lemma pathEffect_config (p : string) (st : Store) (c : Controller) (cfg : Config) :
  config_of c (trace st) = Some cfg ->
  config_of c (trace (exec (pathEffect p) st)) = Some cfg.
Proof.
  unfold exec. rewrite pathEffect_eq. destruct (controllerRef st); [|tauto].
  apply config_of_call.
Qed.

Lemma after_pathEffect (s : State) (p : string) :
  MidInv s ->
  MidInv (run_callback s (RunPathEffect p)) /\
  cleanup (run_callback s (RunPathEffect p)) = cleanup s.
Proof.
  intros [I A]. split; [|reflexivity]. split; simpl.
  - apply StoreInv_pathEffect. exact I.
  - unfold cleanup_agrees in *. simpl. rewrite pathEffect_slot. exact A.
Qed.

Lemma after_handler (s : State) (c : Controller) (cfg : Config) (path : string) :
  MidInv s -> config_of c (trace (store s)) = Some cfg ->
  MidInv (run_callback s (RunHandler (onNavigateTo cfg) path)) /\
  cleanup (run_callback s (RunHandler (onNavigateTo cfg) path)) = cleanup s.
Proof.
  intros [I A] Hcfg. split; [|reflexivity]. split; simpl.
  - apply (StoreInv_applyHandler c); assumption.
  - unfold cleanup_agrees in *. simpl. destruct cfg as [[r]]. exact A.
Qed.

(** ** Events keep the invariant *)

Lemma Inv_init (r : Router) (p : string) : Inv (init r p).
Proof.
  split; [split|]; simpl.
  - apply StoreInv_init.
  - reflexivity.
  - reflexivity.
Qed.

Lemma MidInv_settle (e : Event) (s : State) : MidInv s -> MidInv (settle e s).
Proof. intros [I A]. destruct e; split; assumption. Qed.

Lemma Inv_mounted_slot (s : State) (r : Router) (p : string) :
  Inv s -> deps s = Some (r, p) ->
  r = router s /\ p = pathname s /\
  exists c, cleanup s = Some (CleanupClosure c) /\
            controllerRef (store s) = Some c /\
            config_of c (trace (store s)) = Some (mkConfig (NavigateClosure r)).
Proof.
  intros [[I A] D] Hd. rewrite Hd in D. destruct D as (Hr & Hp & c & Hk & Hcfg).
  split; [exact Hr|]. split; [exact Hp|]. exists c.
  unfold cleanup_agrees in A. rewrite Hk in A. auto.
Qed.

Lemma Inv_unmounted_slot (s : State) :
  Inv s -> deps s = None -> cleanup s = None /\ controllerRef (store s) = None.
Proof.
  intros [[I A] D] Hd. rewrite Hd in D.
  unfold cleanup_agrees in A. rewrite D in A. auto.
Qed.

Lemma step_Inv (s s' : State) (e : Event) :
  Inv s -> step s e = Some s' -> Inv s'.
Proof.
  intros HI H. pose proof HI as [MI D]. unfold step in H.
  destruct (schedule e s) as [cbs|] eqn:Hs; [|discriminate H].
  injection H as <-. destruct e as [| |r p|c path]; simpl in Hs.
  - (* Mount *)
    destruct (deps s) as [[r0 p0]|] eqn:Hd; [discriminate Hs|].
    injection Hs as <-. cbn [run_callbacks fold_left].
    destruct (after_mountEffect s (router s) MI D) as (MI1 & K1 & C1).
    destruct (run_callback_frame s (RunMountEffect (router s))) as (Fr1 & Fp1 & _).
    set (s1 := run_callback s (RunMountEffect (router s))) in *.
    destruct (after_pathEffect s1 (pathname s) MI1) as (MI2 & K2).
    destruct (run_callback_frame s1 (RunPathEffect (pathname s))) as (Fr2 & Fp2 & _).
    pose proof (pathEffect_config (pathname s) (store s1) _ _ C1) as C2.
    set (s2 := run_callback s1 (RunPathEffect (pathname s))) in *.
    split; [apply MidInv_settle; exact MI2|]. simpl.
    split; [reflexivity|]. split; [reflexivity|].
    exists (nextController (store s)). split; [congruence|].
    exact C2.
  - (* Unmount *)
    destruct (deps s) as [[r0 p0]|] eqn:Hd; [|discriminate Hs].
    injection Hs as <-. cbn [run_callbacks fold_left].
    destruct (after_cleanup s MI) as (MI1 & K1).
    split; [apply MidInv_settle; exact MI1|]. simpl. exact K1.
  - (* Update *)
    destruct (deps s) as [[r0 p0]|] eqn:Hd.
    + destruct (Inv_mounted_slot s r0 p0 HI Hd) as (Hr & Hp & c & Hk & Hc & Hcfg).
      injection Hs as <-. unfold run_callbacks. rewrite fold_left_app.
      assert (exists s1,
                 fold_left run_callback
                   (if Nat.eqb r r0 then [] else [RunCleanup; RunMountEffect r]) s = s1 /\
                 MidInv s1 /\ deps s1 = Some (r0, p0) /\
                 exists c1, cleanup s1 = Some (CleanupClosure c1) /\
                   config_of c1 (trace (store s1)) = Some (mkConfig (NavigateClosure r)))
        as (s1 & -> & MI1 & Hd1 & c1 & Hk1 & Hcfg1).
      { destruct (Nat.eqb_spec r r0) as [->|Hne]; cbn [fold_left].
        - exists s. split; [reflexivity|]. split; [exact MI|]. split; [exact Hd|].
          exists c. split; assumption.
        - destruct (after_cleanup s MI) as (MIa & Ka).
          destruct (run_callback_frame s RunCleanup) as (_ & _ & Fda).
          set (sa := run_callback s RunCleanup) in *.
          destruct (after_mountEffect sa r MIa Ka) as (MIb & Kb & Cb).
          destruct (run_callback_frame sa (RunMountEffect r)) as (_ & _ & Fdb).
          eexists. split; [reflexivity|]. split; [exact MIb|].
          split; [congruence|]. eexists. split; [exact Kb | exact Cb]. }
      assert (exists s2,
                 fold_left run_callback
                   (if String.eqb p p0 then [] else [RunPathEffect p]) s1 = s2 /\
                 MidInv s2 /\ deps s2 = Some (r0, p0) /\ cleanup s2 = cleanup s1 /\
                 config_of c1 (trace (store s2)) = Some (mkConfig (NavigateClosure r)))
        as (s2 & -> & MI2 & Hd2 & Hk2 & Hcfg2).
      { destruct (String.eqb p p0); cbn [fold_left].
        - exists s1. split; [reflexivity|]. split; [exact MI1|]. split; [exact Hd1|].
          split; [reflexivity | exact Hcfg1].
        - destruct (after_pathEffect s1 p MI1) as (MIa & Ka).
          destruct (run_callback_frame s1 (RunPathEffect p)) as (_ & _ & Fda).
          eexists. split; [reflexivity|]. split; [exact MIa|].
          split; [congruence|]. split; [exact Ka|].
          apply pathEffect_config. exact Hcfg1. }
      split; [apply MidInv_settle; exact MI2|]. simpl. rewrite Hd2.
      split; [reflexivity|]. split; [reflexivity|].
      exists c1. split; [congruence | exact Hcfg2].
    + injection Hs as <-. simpl. split; [exact MI|]. simpl. rewrite Hd. exact D.
  - (* Navigate *)
    destruct (config_of c (trace (store s))) as [cfg|] eqn:Hcfg; [|discriminate Hs].
    injection Hs as <-. cbn [run_callbacks fold_left settle].
    destruct (after_handler s c cfg path MI Hcfg) as (MI1 & K1).
    split; [exact MI1|].
    destruct (run_callback_frame s (RunHandler (onNavigateTo cfg) path)) as (Fr & Fp & Fd).
    rewrite Fd, Fr, Fp, K1.
    destruct (deps s) as [[r0 p0]|]; [|exact D].
    destruct D as (Hr & Hp & c1 & Hk & Hc1). split; [exact Hr|]. split; [exact Hp|].
    exists c1. split; [exact Hk|]. simpl. destruct cfg as [[rh]]. simpl.
    apply config_of_snoc_old. exact Hc1.
Qed.

Lemma run_Inv (es : list Event) (s s' : State) :
  Inv s -> run es s = Some s' -> Inv s'.
Proof.
  revert s. induction es as [|e es IH]; simpl; intros s HI H.
  - injection H as <-. exact HI.
  - destruct (step s e) as [s1|] eqn:Hstep; [|discriminate H].
    apply (IH s1); [apply (step_Inv s s1 e HI Hstep) | exact H].
Qed.

Lemma reachable_Inv (r0 : Router) (p0 : string) (es : list Event) (s : State) :
  run es (init r0 p0) = Some s -> Inv s.
Proof. apply run_Inv, Inv_init. Qed.

(** ** What each event does *)

Ltac run_closures :=
  simpl;
  cbv [exec mountEffect runCleanup pathEffect applyHandler bind ret
       call createController set_controllerRef get_controllerRef
       fst snd controllerRef nextController trace].

Lemma step_Mount_eq (s : State) :
  deps s = None ->
  step s Mount =
  Some (mkState (router s) (pathname s) (Some (router s, pathname s))
          (Some (CleanupClosure (nextController (store s))))
          (mkStore (Some (nextController (store s))) (S (nextController (store s)))
             (trace (store s)
              ++ [CreateController (nextController (store s)) (navigating (router s));
                  SetCurrentPath (nextController (store s)) (pathname s)]))).
Proof.
  intros Hd. unfold step. simpl. rewrite Hd. run_closures.
  rewrite <- app_assoc. reflexivity.
Qed.

Lemma step_Unmount_eq (s : State) (d : Router * string) (c : Controller) :
  deps s = Some d -> cleanup s = Some (CleanupClosure c) ->
  step s Unmount =
  Some (mkState (router s) (pathname s) None None
          (mkStore None (nextController (store s)) (trace (store s) ++ [Dispose c]))).
Proof.
  intros Hd Hk. unfold step. simpl. rewrite Hd. simpl. rewrite Hk. reflexivity.
Qed.

Lemma step_Update_unmounted_eq (s : State) (r : Router) (p : string) :
  deps s = None ->
  step s (Update r p) = Some (mkState r p None (cleanup s) (store s)).
Proof. intros Hd. unfold step. simpl. rewrite Hd. simpl. rewrite Hd. reflexivity. Qed.

(** A re-render of a mounted component: [renewed] is what the first effect
    does when the router differs, [report] what the second does when the
    pathname differs. *)
Lemma step_Update_mounted_eq (s : State) (r0 r : Router) (p0 p : string) (c : Controller) :
  deps s = Some (r0, p0) -> cleanup s = Some (CleanupClosure c) ->
  controllerRef (store s) = Some c ->
  let n := nextController (store s) in
  let c' := if Nat.eqb r r0 then c else n in
  let renewed :=
    if Nat.eqb r r0 then [] else [Dispose c; CreateController n (navigating r)] in
  let report := if String.eqb p p0 then [] else [SetCurrentPath c' p] in
  step s (Update r p) =
  Some (mkState r p (Some (r, p)) (Some (CleanupClosure c'))
          (mkStore (Some c') (if Nat.eqb r r0 then n else S n)
             (trace (store s) ++ renewed ++ report))).
Proof.
  destruct s as [rr pp d k [slot n tr]]. simpl. intros -> -> ->.
  unfold step. simpl.
  destruct (Nat.eqb r r0), (String.eqb p p0); run_closures;
    repeat rewrite <- app_assoc; simpl; rewrite ?app_nil_r; reflexivity.
Qed.

Lemma step_Navigate_eq (s : State) (c : Controller) (r : Router) (path : string) :
  config_of c (trace (store s)) = Some (navigating r) ->
  step s (Navigate c path) =
  Some (mkState (router s) (pathname s) (deps s) (cleanup s)
          (mkStore (controllerRef (store s)) (nextController (store s))
             (trace (store s) ++ [RouterPush r path]))).
Proof. intros Hcfg. unfold step. simpl. rewrite Hcfg. reflexivity. Qed.

Lemma config_of_unique (c : Controller) (cfg : Config) (tr : list Call) :
  constructed c tr <= 1 -> In (CreateController c cfg) tr ->
  config_of c tr = Some cfg.
Proof.
  unfold constructed. induction tr as [|x tr IH]; simpl; [tauto|].
  destruct x as [c' cfg'| | | |]; simpl;
    try (intros Hle [Hx|Hin]; [discriminate Hx | exact (IH Hle Hin)]).
  destruct (Nat.eqb_spec c c') as [<-|Hne]; simpl; intros Hle [Hx|Hin].
  - injection Hx as ->. reflexivity.
  - assert (1 <= constructed c tr) by (apply constructed_In; exists cfg; exact Hin).
    unfold constructed in *. lia.
  - injection Hx as E _. congruence.
  - exact (IH Hle Hin).
Qed.

Lemma reported_app (c : Controller) (tr1 tr2 : list Call) :
  reported c (tr1 ++ tr2) = reported c tr1 ++ reported c tr2.
Proof.
  induction tr1 as [|x tr1 IH]; simpl; [reflexivity|].
  destruct x as [| |c' p| |]; try exact IH.
  destruct (Nat.eqb c c'); simpl; rewrite IH; reflexivity.
Qed.

(** ** Between the closures of one commit *)

Lemma StoreInv_slot (st : Store) : StoreInv st -> slot_invariant st.
Proof.
  intros I. split; [|split].
  - intros c. split; [apply live_slot | apply slot_live]; exact I.
  - apply (inv_last st I).
  - intros c1 c2 H1 H2.
    apply (live_slot st c1 I) in H1. apply (live_slot st c2 I) in H2. congruence.
Qed.

Lemma MidInv_cleanup (s : State) : MidInv s -> MidInv (run_callback s RunCleanup).
Proof. intros H. apply after_cleanup, H. Qed.

Lemma MidInv_mountEffect (s : State) (r : Router) :
  MidInv s -> cleanup s = None -> MidInv (run_callback s (RunMountEffect r)).
Proof. intros H Hk. apply after_mountEffect; assumption. Qed.

Lemma MidInv_renew (s : State) (r : Router) :
  MidInv s -> MidInv (run_callback (run_callback s RunCleanup) (RunMountEffect r)).
Proof. intros H. apply MidInv_mountEffect; apply after_cleanup, H. Qed.

Lemma MidInv_pathEffect (s : State) (p : string) :
  MidInv s -> MidInv (run_callback s (RunPathEffect p)).
Proof. intros H. apply after_pathEffect, H. Qed.

Lemma prefix_MidInv (s : State) (e : Event) (cbs : list Callback) (n : nat) :
  Inv s -> schedule e s = Some cbs -> MidInv (run_callbacks (firstn n cbs) s).
Proof.
  intros HI Hs. pose proof HI as [MI D].
  destruct e as [| |r p|c path]; simpl in Hs.
  - destruct (deps s) as [[r0 p0]|]; [discriminate Hs|]. injection Hs as <-.
    destruct n as [|[|n]]; cbn [firstn]; rewrite ?firstn_nil; cbn [run_callbacks fold_left];
      auto using MidInv_mountEffect, MidInv_pathEffect.
  - destruct (deps s) as [[r0 p0]|]; [|discriminate Hs]. injection Hs as <-.
    destruct n as [|n]; cbn [firstn]; rewrite ?firstn_nil; cbn [run_callbacks fold_left];
      auto using MidInv_cleanup.
  - destruct (deps s) as [[r0 p0]|]; injection Hs as <-.
    + destruct (Nat.eqb r r0), (String.eqb p p0);
        destruct n as [|[|[|n]]]; cbn [app firstn]; rewrite ?firstn_nil; cbn [run_callbacks fold_left];
        auto using MidInv_cleanup, MidInv_renew, MidInv_pathEffect.
    + destruct n; exact MI.
  - destruct (config_of c (trace (store s))) as [cfg|] eqn:Hcfg; [|discriminate Hs].
    injection Hs as <-.
    destruct n as [|n]; cbn [firstn]; rewrite ?firstn_nil; cbn [run_callbacks fold_left]; [exact MI|].
    apply (after_handler s c cfg path MI Hcfg).
Qed.

(** ** Reports *)

Lemma reported_In (c : Controller) (p : string) (tr : list Call) :
  In p (reported c tr) -> In (SetCurrentPath c p) tr.
Proof.
  induction tr as [|x tr IH]; simpl; [tauto|].
  destruct x as [| |c' p'| |]; try (intros H; right; exact (IH H)).
  destruct (Nat.eqb_spec c c') as [<-|_].
  - intros [<-|H]; [left; reflexivity | right; exact (IH H)].
  - intros H; right; exact (IH H).
Qed.

Lemma fresh_unreported (st : Store) (c : Controller) :
  StoreInv st -> nextController st <= c -> reported c (trace st) = [].
Proof.
  intros I Hc. destruct (reported c (trace st)) as [|p ps] eqn:E; [reflexivity|].
  assert (Hin : In (SetCurrentPath c p) (trace st))
    by (apply reported_In; rewrite E; left; reflexivity).
  apply in_split in Hin as (pre & post & Hsplit).
  destruct (inv_ordered st I pre _ post Hsplit) as [[[cfg Hcfg] _] _].
  assert (1 <= constructed c (trace st)).
  { apply constructed_In. exists cfg. rewrite Hsplit. apply in_or_app. left. exact Hcfg. }
  pose proof (inv_fresh st I c Hc). lia.
Qed.

Lemma mounted_of_slot (s : State) (c : Controller) :
  Inv s -> controllerRef (store s) = Some c ->
  deps s = Some (router s, pathname s) /\
  cleanup s = Some (CleanupClosure c) /\
  config_of c (trace (store s)) = Some (navigating (router s)).
Proof.
  intros HI Hc. destruct (deps s) as [[r p]|] eqn:Hd.
  - destruct (Inv_mounted_slot s r p HI Hd) as (-> & -> & c' & Hk & Hc' & Hcfg).
    assert (c' = c) as -> by congruence. auto.
  - destruct (Inv_unmounted_slot s HI Hd) as [_ Hnone]. congruence.
Qed.

Lemma slot_of_mounted (s : State) :
  Inv s -> deps s <> None -> exists c, controllerRef (store s) = Some c.
Proof.
  intros HI Hd. destruct (deps s) as [[r p]|] eqn:E; [|congruence].
  destruct (Inv_mounted_slot s r p HI E) as (_ & _ & c & _ & Hc & _).
  exists c. exact Hc.
Qed.

(** ** A controller that is not told the path *)

Lemma untold_step (c : Controller) (p : string) (s s' : State) (e : Event) :
  untold c p s -> keeps_pathname p e -> step s e = Some s' -> untold c p s'.
Proof.
  intros (HI & Hp & Hlt & Hrep) Hk Hstep.
  split; [exact (step_Inv s s' e HI Hstep)|].
  destruct e as [| |r p'|c1 path]; simpl in Hk.
  - destruct (deps s) as [d|] eqn:Hd.
    + unfold step in Hstep. simpl in Hstep. rewrite Hd in Hstep. discriminate Hstep.
    + rewrite (step_Mount_eq s Hd) in Hstep. injection Hstep as <-. simpl.
      split; [exact Hp|]. split; [lia|].
      rewrite reported_app, Hrep. simpl.
      destruct (Nat.eqb_spec c (nextController (store s))); [lia | reflexivity].
  - destruct (deps s) as [[r1 p1]|] eqn:Hd.
    + destruct (Inv_mounted_slot s r1 p1 HI Hd) as (_ & _ & c2 & Hk2 & _).
      rewrite (step_Unmount_eq s _ c2 Hd Hk2) in Hstep. injection Hstep as <-. simpl.
      split; [exact Hp|]. split; [exact Hlt|].
      rewrite reported_app, Hrep. reflexivity.
    + unfold step in Hstep. simpl in Hstep. rewrite Hd in Hstep. discriminate Hstep.
  - subst p'. destruct (deps s) as [[r1 p1]|] eqn:Hd.
    + destruct (Inv_mounted_slot s r1 p1 HI Hd) as (_ & Hp1 & c2 & Hk2 & Hc2 & _).
      rewrite (step_Update_mounted_eq s r1 r p1 p c2 Hd Hk2 Hc2) in Hstep.
      assert (String.eqb p p1 = true) as Heq by (apply String.eqb_eq; congruence).
      rewrite Heq in Hstep. injection Hstep as <-. simpl.
      split; [reflexivity|]. rewrite reported_app, Hrep, app_nil_r.
      destruct (Nat.eqb r r1); simpl; split; try lia; reflexivity.
    + rewrite (step_Update_unmounted_eq s r p Hd) in Hstep. injection Hstep as <-. simpl.
      auto.
  - destruct (config_of c1 (trace (store s))) as [[[r]]|] eqn:Hcfg.
    + rewrite (step_Navigate_eq s c1 r path Hcfg) in Hstep. injection Hstep as <-. simpl.
      split; [exact Hp|]. split; [exact Hlt|].
      rewrite reported_app, Hrep. reflexivity.
    + unfold step in Hstep. simpl in Hstep. rewrite Hcfg in Hstep. discriminate Hstep.
Qed.

Lemma untold_run (c : Controller) (p : string) (es : list Event) (s s' : State) :
  untold c p s -> Forall (keeps_pathname p) es -> run es s = Some s' -> untold c p s'.
Proof.
  revert s. induction es as [|e es IH]; simpl; intros s Hu Hall Hrun.
  - injection Hrun as <-. exact Hu.
  - destruct (step s e) as [s1|] eqn:Hstep; [|discriminate Hrun].
    inversion Hall as [|e' es' He Hes]; subst.
    apply (IH s1); [apply (untold_step c p s s1 e) | |]; assumption.
Qed.

(** * The claims *)

Section Reachable.

Variables (r0 : Router) (p0 : string) (es : list Event) (s : State).
Hypothesis Hrun : run es (init r0 p0) = Some s.

(** C1.  After any sequence of events, no controller has been constructed
    twice, none has been disposed more often than constructed, the only
    controller constructed and not yet disposed is the one the slot holds,
    every dispose came after the construction of a still-live controller,
    and once the component is unmounted every controller has exactly as many
    dispose calls as constructions. *)
Theorem one_dispose_per_controller (c : Controller) :
  constructed c (trace (store s)) <= 1 /\
  disposed c (trace (store s)) <= constructed c (trace (store s)) /\
  (disposed c (trace (store s)) < constructed c (trace (store s))
   <-> controllerRef (store s) = Some c) /\
  (deps s = None ->
   disposed c (trace (store s)) = constructed c (trace (store s))) /\
  (forall pre post, trace (store s) = pre ++ Dispose c :: post -> live c pre).
Proof.
  pose proof (reachable_Inv r0 p0 es s Hrun) as HI.
  pose proof HI as [[I A] D].
  pose proof (inv_balance _ I c) as Hb. pose proof (inv_once _ I c) as Ho.
  split; [exact Ho|]. split; [lia|]. split; [|split].
  - split.
    + intros Hlt. destruct (controllerRef (store s)) as [c'|]; simpl in Hb; [|lia].
      destruct (Nat.eqb_spec c c') as [->|_]; [reflexivity | lia].
    + intros Hc. rewrite Hc in Hb. simpl in Hb. rewrite Nat.eqb_refl in Hb. lia.
  - intros Hd. destruct (Inv_unmounted_slot s HI Hd) as [_ Hnone].
    rewrite Hnone in Hb. simpl in Hb. lia.
  - intros pre post E. apply (inv_ordered _ I pre (Dispose c) post E).
Qed.

(** C2.  Between any two closures the framework runs (so in particular
    between any two events), the live controllers are exactly what the slot
    holds: a controller is live if and only if the slot holds it, the slot
    only ever holds the most recently constructed controller, and two live
    controllers are the same one. *)
Theorem slot_is_the_only_live_controller
        (e : Event) (cbs : list Callback) (n : nat) :
  schedule e s = Some cbs ->
  slot_invariant (store s) /\
  slot_invariant (store (run_callbacks (firstn n cbs) s)).
Proof.
  intros Hs. pose proof (reachable_Inv r0 p0 es s Hrun) as HI. split.
  - apply StoreInv_slot, HI.
  - apply StoreInv_slot. apply (prefix_MidInv s e cbs n HI Hs).
Qed.

(** C3.  While the slot holds a controller, an update that changes the
    pathname to [p] makes exactly one [setCurrentPath] call; it goes to the
    controller the slot holds when the path effect runs and carries [p].
    When the router is unchanged that controller is the one held before and
    the call is the only call made. *)
Theorem path_change_reports_once (r : Router) (p : string) (c0 : Controller) :
  controllerRef (store s) = Some c0 -> p <> pathname s ->
  exists s' c delta,
    step s (Update r p) = Some s' /\
    trace (store s') = trace (store s) ++ delta /\
    controllerRef (store s') = Some c /\
    filter is_setCurrentPath delta = [SetCurrentPath c p] /\
    (r = router s -> c = c0 /\ delta = [SetCurrentPath c0 p]).
Proof.
  intros Hc Hp. pose proof (reachable_Inv r0 p0 es s Hrun) as HI.
  destruct (mounted_of_slot s c0 HI Hc) as (Hd & Hk & _).
  pose proof (step_Update_mounted_eq s (router s) r (pathname s) p c0 Hd Hk Hc) as E.
  cbv zeta in E. apply String.eqb_neq in Hp. rewrite Hp in E.
  destruct (Nat.eqb_spec r (router s)) as [Hr|Hr];
    (eexists; eexists; eexists; split; [exact E|]); simpl;
    (split; [reflexivity|]); (split; [reflexivity|]); (split; [reflexivity|]).
  - intros _. split; reflexivity.
  - intros Hr'. contradiction.
Qed.

(** C4.  When a controller constructed with a handler that captured router
    [r] invokes that handler with [path], the only call made is
    [r.push(path)], once, with the string unchanged; the slot is left as it
    was.  For the controller the slot holds, [r] is the current router. *)
Theorem navigation_is_forwarded (c : Controller) (r : Router) (path : string) :
  In (CreateController c (navigating r)) (trace (store s)) ->
  exists s',
    step s (Navigate c path) = Some s' /\
    trace (store s') = trace (store s) ++ [RouterPush r path] /\
    controllerRef (store s') = controllerRef (store s) /\
    (controllerRef (store s) = Some c -> r = router s).
Proof.
  intros Hin. pose proof (reachable_Inv r0 p0 es s Hrun) as HI.
  pose proof HI as [[I _] _].
  pose proof (config_of_unique c _ _ (inv_once _ I c) Hin) as Hcfg.
  eexists. split; [apply (step_Navigate_eq s c r path Hcfg)|]. simpl.
  split; [reflexivity|]. split; [reflexivity|].
  intros Hc. destruct (mounted_of_slot s c HI Hc) as (_ & _ & Hcfg').
  rewrite Hcfg in Hcfg'. injection Hcfg' as E. exact E.
Qed.

(** C8.  A re-render of the mounted component with the same router makes no
    [createController] and no [dispose] call, and leaves the slot, the
    pending cleanup and the allocation counter as they were. *)
Theorem same_router_keeps_controller (p : string) :
  deps s <> None ->
  exists s' c delta,
    step s (Update (router s) p) = Some s' /\
    trace (store s') = trace (store s) ++ delta /\
    filter is_lifecycle delta = [] /\
    controllerRef (store s) = Some c /\
    controllerRef (store s') = Some c /\
    cleanup s' = cleanup s /\
    nextController (store s') = nextController (store s).
Proof.
  intros Hm. pose proof (reachable_Inv r0 p0 es s Hrun) as HI.
  destruct (slot_of_mounted s HI Hm) as [c Hc].
  destruct (mounted_of_slot s c HI Hc) as (Hd & Hk & _).
  pose proof (step_Update_mounted_eq s (router s) (router s) (pathname s) p c Hd Hk Hc) as E.
  cbv zeta in E. rewrite Nat.eqb_refl in E.
  eexists; exists c; eexists. split; [exact E|]. simpl.
  split; [reflexivity|]. split; [destruct (String.eqb p (pathname s)); reflexivity|].
  split; [exact Hc|]. split; [reflexivity|]. split; [symmetry; exact Hk | reflexivity].
Qed.

(** C9.  Mounting constructs a controller and then reports the current
    pathname to it: these are the two calls made, and that report is the
    only one the new controller has received. *)
Theorem mount_reports_current_path :
  deps s = None ->
  exists s',
    step s Mount = Some s' /\
    trace (store s') =
      trace (store s)
      ++ [CreateController (nextController (store s)) (navigating (router s));
          SetCurrentPath (nextController (store s)) (pathname s)] /\
    controllerRef (store s') = Some (nextController (store s)) /\
    reported (nextController (store s)) (trace (store s')) = [pathname s].
Proof.
  intros Hd. pose proof (reachable_Inv r0 p0 es s Hrun) as [[I _] _].
  eexists. split; [apply (step_Mount_eq s Hd)|]. simpl.
  split; [reflexivity|]. split; [reflexivity|].
  rewrite reported_app, (fresh_unreported _ _ I (le_n _)). simpl.
  rewrite Nat.eqb_refl. reflexivity.
Qed.

(** C10.  When the router changes and the pathname does not, the held
    controller is disposed and a new one constructed, and these are the only
    calls.  The new controller then receives no [setCurrentPath] call for as
    long as the events that follow leave the pathname as it is. *)
Theorem renewed_controller_is_not_told_the_path (r : Router) :
  deps s <> None -> r <> router s ->
  exists s1 c c',
    controllerRef (store s) = Some c /\
    step s (Update r (pathname s)) = Some s1 /\
    trace (store s1) =
      trace (store s) ++ [Dispose c; CreateController c' (navigating r)] /\
    controllerRef (store s1) = Some c' /\
    forall es' s2,
      Forall (keeps_pathname (pathname s)) es' -> run es' s1 = Some s2 ->
      reported c' (trace (store s2)) = [].
Proof.
  intros Hm Hr. pose proof (reachable_Inv r0 p0 es s Hrun) as HI.
  destruct (slot_of_mounted s HI Hm) as [c Hc].
  destruct (mounted_of_slot s c HI Hc) as (Hd & Hk & _).
  pose proof (step_Update_mounted_eq s (router s) r (pathname s) (pathname s) c Hd Hk Hc) as E.
  cbv zeta in E. rewrite String.eqb_refl in E.
  apply Nat.eqb_neq in Hr. rewrite Hr in E.
  eexists; exists c; exists (nextController (store s)).
  split; [exact Hc|]. split; [exact E|]. simpl.
  split; [reflexivity|]. split; [reflexivity|].
  intros es' s2 Hall Hrun'.
  refine (proj2 (proj2 (proj2 (untold_run _ (pathname s) es' _ s2 _ Hall Hrun')))).
  split; [exact (step_Inv _ _ _ HI E)|]. simpl.
  split; [reflexivity|]. split; [lia|].
  pose proof HI as [[I _] _].
  rewrite !reported_app, (fresh_unreported _ _ I (le_n _)). reflexivity.
Qed.

End Reachable.

(** C5.  With the slot empty the path effect does nothing: it returns
    normally and leaves the heap, and so the trace, as it was.  A reachable
    page with an empty slot has no mounted component, and an update of the
    pathname there changes what the hooks return and nothing else. *)
Theorem empty_slot_skips_report (st : Store) (p : string) :
  controllerRef st = None ->
  pathEffect p st = (tt, st) /\
  forall r0 p0 es s r,
    run es (init r0 p0) = Some s -> store s = st ->
    step s (Update r p) = Some (mkState r p None None st).
Proof.
  intros Hnone. split.
  - rewrite pathEffect_eq, Hnone. reflexivity.
  - intros r0 p0 es s r Hrun <-.
    pose proof (reachable_Inv r0 p0 es s Hrun) as HI.
    destruct (deps s) as [[r1 p1]|] eqn:Hd.
    + destruct (Inv_mounted_slot s r1 p1 HI Hd) as (_ & _ & c & _ & Hc & _). congruence.
    + destruct (Inv_unmounted_slot s HI Hd) as [Hk _].
      rewrite (step_Update_unmounted_eq s r p Hd), Hk. reflexivity.
Qed.

(** C7, as amended.  From a page where the component is not mounted and the
    pathname is not ["/about"], the events mount, pathname changes to
    ["/about"], unmount make exactly four calls, in this order: the
    construction of a controller, the report of the pathname at mount, the
    report of ["/about"], and the dispose of that controller. *)
Theorem mount_about_unmount_calls (s : State) :
  deps s = None -> pathname s <> "/about" ->
  exists s',
    run [Mount; Update (router s) "/about"; Unmount] s = Some s' /\
    trace (store s') =
      trace (store s)
      ++ [CreateController (nextController (store s)) (navigating (router s));
          SetCurrentPath (nextController (store s)) (pathname s);
          SetCurrentPath (nextController (store s)) "/about";
          Dispose (nextController (store s))].
Proof.
  intros Hd Hp. cbn [run]. rewrite (step_Mount_eq s Hd).
  match goal with
  | |- context [step ?s1 (Update _ _)] =>
      rewrite (step_Update_mounted_eq s1 (router s) (router s) (pathname s) "/about"
                 (nextController (store s)) eq_refl eq_refl eq_refl)
  end.
  cbv zeta. rewrite Nat.eqb_refl.
  assert (String.eqb "/about" (pathname s) = false) as ->
      by (apply String.eqb_neq; congruence).
  match goal with
  | |- context [step ?s2 Unmount] =>
      rewrite (step_Unmount_eq s2 (router s, "/about") (nextController (store s))
                 eq_refl eq_refl)
  end.
  eexists. split; [reflexivity|]. simpl.
  repeat rewrite <- app_assoc. reflexivity.
Qed.

(** C7, as stated, fails: mounted at ["/"], the component reports ["/"]
    before it reports ["/about"], so the calls are not the three of the
    claim. *)
Lemma three_call_scenario_fails :
  ~ (forall (r : Router) (p : string), p <> "/about" ->
     exists s c cfg,
       run [Mount; Update r "/about"; Unmount] (init r p) = Some s /\
       trace (store s) = [CreateController c cfg; SetCurrentPath c "/about"; Dispose c]).
Proof.
  intros H. destruct (H 0 "/") as (s & c & cfg & Hrun & Htr); [discriminate|].
  vm_compute in Hrun. injection Hrun as <-. discriminate Htr.
Qed.

(** * The theorems at concrete runs *)

Lemma one_dispose_per_controller_witness :
  exists s,
    run [Mount; Update 1 "/"; Unmount] (init 0 "/") = Some s /\
    forall c,
      constructed c (trace (store s)) <= 1 /\
      disposed c (trace (store s)) = constructed c (trace (store s)).
Proof.
  eexists. split; [reflexivity|]. intros c.
  destruct (one_dispose_per_controller 0 "/" [Mount; Update 1 "/"; Unmount] _ eq_refl c)
    as (H1 & _ & _ & H4 & _).
  split; [exact H1 | exact (H4 eq_refl)].
Defined.

Lemma slot_is_the_only_live_controller_witness :
  exists s,
    run [Mount] (init 0 "/") = Some s /\
    slot_invariant (store s) /\
    slot_invariant
      (store (run_callbacks
                (firstn 1 [RunCleanup; RunMountEffect 1; RunPathEffect "/blog"]) s)).
Proof.
  eexists. split; [reflexivity|].
  exact (slot_is_the_only_live_controller 0 "/" [Mount] _ eq_refl
           (Update 1 "/blog") _ 1 eq_refl).
Defined.

Lemma path_change_reports_once_witness :
  exists s,
    run [Mount] (init 0 "/") = Some s /\
    exists s' c delta,
      step s (Update 0 "/about") = Some s' /\
      trace (store s') = trace (store s) ++ delta /\
      controllerRef (store s') = Some c /\
      filter is_setCurrentPath delta = [SetCurrentPath c "/about"] /\
      (0 = router s -> c = 0 /\ delta = [SetCurrentPath 0 "/about"]).
Proof.
  eexists. split; [reflexivity|].
  apply (path_change_reports_once 0 "/" [Mount] _ eq_refl 0 "/about" 0).
  - reflexivity.
  - apply String.eqb_neq. reflexivity.
Defined.

Lemma navigation_is_forwarded_witness :
  exists s,
    run [Mount] (init 0 "/") = Some s /\
    exists s',
      step s (Navigate 0 "/products/42") = Some s' /\
      trace (store s') = trace (store s) ++ [RouterPush 0 "/products/42"] /\
      controllerRef (store s') = controllerRef (store s) /\
      (controllerRef (store s) = Some 0 -> 0 = router s).
Proof.
  eexists. split; [reflexivity|].
  apply (navigation_is_forwarded 0 "/" [Mount] _ eq_refl 0 0 "/products/42").
  simpl. left. reflexivity.
Defined.

Lemma empty_slot_skips_report_witness :
  exists s,
    run [Mount; Unmount] (init 0 "/") = Some s /\
    pathEffect "/about" (store s) = (tt, store s) /\
    step s (Update 0 "/about") = Some (mkState 0 "/about" None None (store s)).
Proof.
  eexists. split; [reflexivity|].
  match goal with
  | |- pathEffect _ (store ?s) = _ /\ _ =>
      destruct (empty_slot_skips_report (store s) "/about" eq_refl) as [H1 H2];
      split; [exact H1 | exact (H2 0 "/" [Mount; Unmount] s 0 eq_refl eq_refl)]
  end.
Defined.

Lemma mount_about_unmount_calls_witness :
  exists s',
    run [Mount; Update 0 "/about"; Unmount] (init 0 "/") = Some s' /\
    trace (store s') =
      [CreateController 0 (navigating 0); SetCurrentPath 0 "/";
       SetCurrentPath 0 "/about"; Dispose 0].
Proof.
  apply (mount_about_unmount_calls (init 0 "/")).
  - reflexivity.
  - apply String.eqb_neq. reflexivity.
Defined.

Lemma same_router_keeps_controller_witness :
  exists s,
    run [Mount] (init 0 "/") = Some s /\
    exists s' c delta,
      step s (Update (router s) "/about") = Some s' /\
      trace (store s') = trace (store s) ++ delta /\
      filter is_lifecycle delta = [] /\
      controllerRef (store s) = Some c /\
      controllerRef (store s') = Some c /\
      cleanup s' = cleanup s /\
      nextController (store s') = nextController (store s).
Proof.
  eexists. split; [reflexivity|].
  apply (same_router_keeps_controller 0 "/" [Mount] _ eq_refl "/about").
  simpl. discriminate.
Defined.

Lemma mount_reports_current_path_witness :
  exists s',
    step (init 0 "/") Mount = Some s' /\
    trace (store s') =
      [CreateController 0 (navigating 0); SetCurrentPath 0 "/"] /\
    controllerRef (store s') = Some 0 /\
    reported 0 (trace (store s')) = ["/"].
Proof.
  exact (mount_reports_current_path 0 "/" [] (init 0 "/") eq_refl eq_refl).
Defined.

Lemma renewed_controller_is_not_told_the_path_witness :
  exists s,
    run [Mount] (init 0 "/") = Some s /\
    exists s1 c c',
      controllerRef (store s) = Some c /\
      step s (Update 1 (pathname s)) = Some s1 /\
      trace (store s1) =
        trace (store s) ++ [Dispose c; CreateController c' (navigating 1)] /\
      controllerRef (store s1) = Some c' /\
      forall es' s2,
        Forall (keeps_pathname (pathname s)) es' -> run es' s1 = Some s2 ->
        reported c' (trace (store s2)) = [].
Proof.
  eexists. split; [reflexivity|].
  apply (renewed_controller_is_not_told_the_path 0 "/" [Mount] _ eq_refl 1).
  - simpl. discriminate.
  - simpl. lia.
Defined.

(** * Further properties of the component *)

(** ** Events as transitions *)

Lemma step_transition (s s' : State) (e : Event) :
  Inv s -> step s e = Some s' -> transition s e s'.
Proof.
  intros HI Hstep. destruct e as [| |r p|c path].
  - destruct (deps s) as [d|] eqn:Hd.
    + unfold step in Hstep. simpl in Hstep. rewrite Hd in Hstep. discriminate Hstep.
    + rewrite (step_Mount_eq s Hd) in Hstep. injection Hstep as <-.
      apply T_mount. exact Hd.
  - destruct (deps s) as [[r1 p1]|] eqn:Hd.
    + destruct (Inv_mounted_slot s r1 p1 HI Hd) as (-> & -> & c & Hk & Hc & _).
      rewrite (step_Unmount_eq s _ c Hd Hk) in Hstep. injection Hstep as <-.
      apply T_unmount; assumption.
    + unfold step in Hstep. simpl in Hstep. rewrite Hd in Hstep. discriminate Hstep.
  - destruct (deps s) as [[r1 p1]|] eqn:Hd.
    + destruct (Inv_mounted_slot s r1 p1 HI Hd) as (-> & -> & c & Hk & Hc & _).
      rewrite (step_Update_mounted_eq s _ r _ p c Hd Hk Hc) in Hstep.
      injection Hstep as <-. apply T_update_mounted; assumption.
    + destruct (Inv_unmounted_slot s HI Hd) as [Hk Hc].
      rewrite (step_Update_unmounted_eq s r p Hd), Hk in Hstep.
      injection Hstep as <-. apply T_update_unmounted; assumption.
  - destruct (config_of c (trace (store s))) as [[[r]]|] eqn:Hcfg.
    + rewrite (step_Navigate_eq s c r path Hcfg) in Hstep. injection Hstep as <-.
      apply T_navigate. exact Hcfg.
    + unfold step in Hstep. simpl in Hstep. rewrite Hcfg in Hstep. discriminate Hstep.
Qed.

Lemma run_invariant (P : State -> Prop) :
  (forall s e s', Inv s -> P s -> transition s e s' -> P s') ->
  forall es s s', Inv s -> P s -> run es s = Some s' -> P s'.
Proof.
  intros Hstep es. induction es as [|e es IH]; simpl; intros s s' HI HP Hrun.
  - injection Hrun as <-. exact HP.
  - destruct (step s e) as [s1|] eqn:E; [|discriminate Hrun].
    apply (IH s1 s').
    + exact (step_Inv s s1 e HI E).
    + exact (Hstep s e s1 HI HP (step_transition s s1 e HI E)).
    + exact Hrun.
Qed.

(** ** The slot is filled before it is used *)

Lemma slot_after_mountEffect (s : State) (r : Router) :
  controllerRef (store (run_callback s (RunMountEffect r)))
  = Some (nextController (store s)).
Proof. reflexivity. Qed.

(** Whenever the framework is about to run the path effect, the slot holds a
    controller. *)
Lemma slot_before_pathEffect
      (s : State) (e : Event) (cbs : list Callback) (n : nat) (p : string) :
  Inv s -> schedule e s = Some cbs -> nth_error cbs n = Some (RunPathEffect p) ->
  exists c, controllerRef (store (run_callbacks (firstn n cbs) s)) = Some c.
Proof.
  intros HI Hs Hn. destruct e as [| |r p'|c path]; simpl in Hs.
  - destruct (deps s) as [[r1 p1]|]; [discriminate Hs|]. injection Hs as <-.
    destruct n as [|[|n]]; simpl in Hn; try discriminate Hn.
    + eexists. cbn [firstn run_callbacks fold_left]. apply slot_after_mountEffect.
    + destruct n; discriminate Hn.
  - destruct (deps s) as [[r1 p1]|]; [|discriminate Hs]. injection Hs as <-.
    destruct n as [|n]; simpl in Hn; [discriminate Hn | destruct n; discriminate Hn].
  - destruct (deps s) as [[r1 p1]|] eqn:Hd; injection Hs as <-.
    + destruct (Inv_mounted_slot s r1 p1 HI Hd) as (_ & _ & c & _ & Hc & _).
      destruct (Nat.eqb r r1), (String.eqb p' p1); simpl in Hn.
      * destruct n; discriminate Hn.
      * destruct n as [|n]; [|destruct n; discriminate Hn].
        exists c. exact Hc.
      * destruct n as [|[|n]]; try discriminate Hn. destruct n; discriminate Hn.
      * destruct n as [|[|[|n]]]; try discriminate Hn; [|destruct n; discriminate Hn].
        eexists. cbn [firstn run_callbacks fold_left]. apply slot_after_mountEffect.
    + destruct n; discriminate Hn.
  - destruct (config_of c (trace (store s))) as [cfg|]; [|discriminate Hs].
    injection Hs as <-.
    destruct n as [|n]; simpl in Hn; [discriminate Hn | destruct n; discriminate Hn].
Qed.

Lemma constructed_app (c : Controller) (tr1 tr2 : list Call) :
  constructed c (tr1 ++ tr2) = constructed c tr1 + constructed c tr2.
Proof. unfold constructed. rewrite filter_app, length_app. reflexivity. Qed.

(** The event that constructs a controller leaves it in the slot. *)
Lemma transition_constructs_into_slot (s s' : State) (e : Event) (c : Controller) :
  transition s e s' ->
  1 <= constructed c (trace (store s')) ->
  1 <= constructed c (trace (store s)) \/ controllerRef (store s') = Some c.
Proof.
  intros T. destruct T as [Hd|c1 Hd Hk Hc|r p Hd Hk Hc|c1 r p Hd Hk Hc|c1 r path Hcfg];
    simpl; try (intros H; left; exact H);
    repeat match goal with
           | |- context [if ?b then _ else _] => destruct b
           end;
    rewrite ?constructed_app;
    set (k := constructed c (trace (store s)));
    unfold constructed; simpl;
    try (destruct (Nat.eqb_spec c (nextController (store s))) as [->|_];
         [intros _; right; reflexivity|]);
    simpl; intros H; left; lia.
Qed.

(** A controller that exists at the end of a run was in the slot at the end
    of some prefix of the run, unless it existed at the start. *)
Lemma constructed_was_held (es : list Event) (s0 s : State) (c : Controller) :
  Inv s0 -> run es s0 = Some s ->
  1 <= constructed c (trace (store s)) ->
  1 <= constructed c (trace (store s0)) \/
  exists es1 es2 s1,
    es = es1 ++ es2 /\ run es1 s0 = Some s1 /\ controllerRef (store s1) = Some c.
Proof.
  revert s0. induction es as [|e es IH]; simpl; intros s0 HI Hrun Hc.
  - injection Hrun as <-. left. exact Hc.
  - destruct (step s0 e) as [sa|] eqn:E; [|discriminate Hrun].
    destruct (IH sa (step_Inv s0 sa e HI E) Hrun Hc)
      as [Ha | (es1 & es2 & s1 & -> & Hrun1 & Hslot)].
    + destruct (transition_constructs_into_slot s0 sa e c
                  (step_transition s0 sa e HI E) Ha) as [H0 | Hslot].
      * left. exact H0.
      * right. exists [e], es, sa. split; [reflexivity|].
        split; [simpl; rewrite E; reflexivity | exact Hslot].
    + right. exists (e :: es1), es2, s1. split; [reflexivity|].
      split; [simpl; rewrite E; exact Hrun1 | exact Hslot].
Qed.

(** C6.  Filling the slot comes before every use of the controller.
    Whenever the framework runs the path effect, in a mount or in a later
    commit, the slot already holds a controller that has been constructed,
    is not disposed and is the most recently constructed one, and the
    report goes to it.  Whenever a controller invokes the navigation
    handler, that controller has been constructed and was held by the slot
    at the end of an earlier part of the run.  In the trace, every
    [setCurrentPath] on [c] comes after the construction of [c] and every
    [router.push] on [r] after the construction of a controller whose
    handler captured [r]. *)
Theorem slot_filled_before_use
        (r0 : Router) (p0 : string) (es : list Event) (s : State) :
  run es (init r0 p0) = Some s ->
  (forall e cbs n p,
      schedule e s = Some cbs -> nth_error cbs n = Some (RunPathEffect p) ->
      exists c,
        controllerRef (store (run_callbacks (firstn n cbs) s)) = Some c /\
        live c (trace (store (run_callbacks (firstn n cbs) s))) /\
        last_constructed (trace (store (run_callbacks (firstn n cbs) s))) = Some c /\
        trace (store (run_callback (run_callbacks (firstn n cbs) s) (RunPathEffect p)))
        = trace (store (run_callbacks (firstn n cbs) s)) ++ [SetCurrentPath c p]) /\
  (forall c path s',
      step s (Navigate c path) = Some s' ->
      (exists cfg, In (CreateController c cfg) (trace (store s))) /\
      exists es0 es1 s0,
        es = es0 ++ es1 /\ run es0 (init r0 p0) = Some s0 /\
        controllerRef (store s0) = Some c /\ live c (trace (store s0))) /\
  (forall pre x post,
      trace (store s) = pre ++ x :: post ->
      match x with
      | SetCurrentPath c _ => live c pre /\ last_constructed pre = Some c
      | RouterPush r _ => exists c, In (CreateController c (navigating r)) pre
      | _ => True
      end).
Proof.
  intros Hrun. pose proof (reachable_Inv r0 p0 es s Hrun) as HI.
  split; [|split].
  - intros e cbs n p Hs Hn.
    destruct (slot_before_pathEffect s e cbs n p HI Hs Hn) as [c Hc].
    destruct (prefix_MidInv s e cbs n HI Hs) as [I1 _].
    exists c. split; [exact Hc|].
    split; [exact (slot_live _ c I1 Hc)|].
    split; [exact (inv_last _ I1 c Hc)|].
    simpl. unfold exec. rewrite pathEffect_eq, Hc. reflexivity.
  - intros c path s' Hstep.
    assert (Hcfg : exists cfg, config_of c (trace (store s)) = Some cfg).
    { unfold step in Hstep. simpl in Hstep.
      destruct (config_of c (trace (store s))) as [cfg|]; [|discriminate Hstep].
      exists cfg. reflexivity. }
    destruct Hcfg as [cfg Hcfg]. apply config_of_In in Hcfg.
    split; [exists cfg; exact Hcfg|].
    assert (Hc : 1 <= constructed c (trace (store s)))
      by (apply constructed_In; exists cfg; exact Hcfg).
    destruct (constructed_was_held es (init r0 p0) s c (Inv_init r0 p0) Hrun Hc)
      as [H0 | (es0 & es1 & s0 & Hes & Hrun0 & Hslot)].
    + simpl in H0. inversion H0.
    + exists es0, es1, s0. split; [exact Hes|]. split; [exact Hrun0|].
      split; [exact Hslot|].
      pose proof (reachable_Inv r0 p0 es0 s0 Hrun0) as [[I0 _] _].
      exact (slot_live _ c I0 Hslot).
  - intros pre x post E. pose proof HI as [[I0 _] _].
    pose proof (inv_ordered _ I0 pre x post E) as H.
    destruct x; simpl in H; first [exact H | constructor].
Qed.

Lemma slot_filled_before_use_witness :
  exists s,
    run [Mount; Update 1 "/"; Navigate 0 "/products/42"] (init 0 "/") = Some s /\
    (exists c,
        controllerRef (store s) = Some c /\
        live c (trace (store s)) /\
        last_constructed (trace (store s)) = Some c /\
        trace (store (run_callback s (RunPathEffect "/about")))
        = trace (store s) ++ [SetCurrentPath c "/about"]) /\
    (exists es0 es1 s0,
        [Mount; Update 1 "/"; Navigate 0 "/products/42"] = es0 ++ es1 /\
        run es0 (init 0 "/") = Some s0 /\
        controllerRef (store s0) = Some 0 /\ live 0 (trace (store s0))).
Proof.
  eexists. split; [reflexivity|].
  destruct (slot_filled_before_use 0 "/"
              [Mount; Update 1 "/"; Navigate 0 "/products/42"] _ eq_refl)
    as (Hreport & Hnavigate & _).
  split.
  - exact (Hreport (Update 1 "/about") [RunPathEffect "/about"] 0 "/about"
             eq_refl eq_refl).
  - exact (proj2 (Hnavigate 0 "/x" _ eq_refl)).
Defined.

(** ** Click-to-edit is left to the editor *)

Lemma transition_no_enable (s s' : State) (e : Event) :
  (forall c b, ~ In (EnableClickToEdit c b) (trace (store s))) ->
  transition s e s' ->
  forall c b, ~ In (EnableClickToEdit c b) (trace (store s')).
Proof.
  intros HP T c b Hin.
  destruct T; simpl in Hin;
    repeat (apply in_app_or in Hin as [Hin|Hin]);
    try (exact (HP c b Hin));
    repeat match type of Hin with
           | context [if ?b then _ else _] => destruct b
           end;
    simpl in Hin; intuition discriminate.
Qed.

(** X1.  The component never calls [enableClickToEdit]: no trace of any run
    contains such a call. *)
Theorem never_enables_click_to_edit
        (r0 : Router) (p0 : string) (es : list Event) (s : State) :
  run es (init r0 p0) = Some s ->
  forall c b, ~ In (EnableClickToEdit c b) (trace (store s)).
Proof.
  apply (run_invariant
           (fun s => forall c b, ~ In (EnableClickToEdit c b) (trace (store s)))).
  - intros s1 e s2 _ HP T. exact (transition_no_enable s1 s2 e HP T).
  - apply Inv_init.
  - intros c b [].
Qed.

(** ** Router and pathname changing in one render *)

Lemma slot_allocated (s : State) (c : Controller) :
  Inv s -> controllerRef (store s) = Some c -> c < nextController (store s).
Proof.
  intros [[I _] _] Hc.
  destruct (Nat.lt_ge_cases c (nextController (store s))) as [Hlt|Hge]; [exact Hlt|].
  pose proof (inv_fresh _ I c Hge) as H0.
  pose proof (slot_live _ c I Hc) as Hl. apply live_counts in Hl. lia.
Qed.

(** X2.  When a render changes both the router and the pathname, the held
    controller is disposed, then a new one is constructed with a handler on
    the new router, then the new pathname is reported to the new controller;
    the disposed controller is told nothing more. *)
Theorem router_and_path_change
        (r0 : Router) (p0 : string) (es : list Event) (s : State)
        (c : Controller) (r : Router) (p : string) :
  run es (init r0 p0) = Some s ->
  controllerRef (store s) = Some c -> r <> router s -> p <> pathname s ->
  exists s',
    step s (Update r p) = Some s' /\
    trace (store s') =
      trace (store s)
      ++ [Dispose c; CreateController (nextController (store s)) (navigating r);
          SetCurrentPath (nextController (store s)) p] /\
    controllerRef (store s') = Some (nextController (store s)) /\
    nextController (store s) <> c /\
    reported c (trace (store s')) = reported c (trace (store s)).
Proof.
  intros Hrun Hc Hr Hp. pose proof (reachable_Inv r0 p0 es s Hrun) as HI.
  destruct (mounted_of_slot s c HI Hc) as (Hd & Hk & _).
  pose proof (step_Update_mounted_eq s (router s) r (pathname s) p c Hd Hk Hc) as E.
  cbv zeta in E. apply Nat.eqb_neq in Hr. apply String.eqb_neq in Hp.
  rewrite Hr, Hp in E. pose proof (slot_allocated s c HI Hc) as Hlt.
  eexists. split; [exact E|]. simpl.
  split; [reflexivity|]. split; [reflexivity|]. split; [lia|].
  rewrite reported_app. simpl.
  destruct (Nat.eqb_spec c (nextController (store s))); [lia|].
  apply app_nil_r.
Qed.

(** ** The cleanup disposes what the slot holds *)

(** X3.  Unmounting makes exactly one call, [dispose] on the controller the
    slot holds, and leaves the slot empty with no cleanup pending; what the
    routing hooks return is untouched. *)
Theorem unmount_disposes_held_controller
        (r0 : Router) (p0 : string) (es : list Event) (s : State) (c : Controller) :
  run es (init r0 p0) = Some s ->
  controllerRef (store s) = Some c ->
  step s Unmount =
  Some (mkState (router s) (pathname s) None None
          (mkStore None (nextController (store s)) (trace (store s) ++ [Dispose c]))).
Proof.
  intros Hrun Hc. pose proof (reachable_Inv r0 p0 es s Hrun) as HI.
  destruct (mounted_of_slot s c HI Hc) as (Hd & Hk & _).
  exact (step_Unmount_eq s _ c Hd Hk).
Qed.

(** ** A render that changes nothing *)

(** X4.  A re-render in which neither the router nor the pathname changed
    leaves everything as it was: no call is made and the slot, the pending
    cleanup and the recorded dependencies are unchanged. *)
Theorem unchanged_render_is_silent
        (r0 : Router) (p0 : string) (es : list Event) (s : State) :
  run es (init r0 p0) = Some s ->
  step s (Update (router s) (pathname s)) = Some s.
Proof.
  intros Hrun. pose proof (reachable_Inv r0 p0 es s Hrun) as HI.
  destruct (deps s) as [[r1 p1]|] eqn:Hd.
  - destruct (Inv_mounted_slot s r1 p1 HI Hd) as (-> & -> & c & Hk & Hc & _).
    rewrite (step_Update_mounted_eq s _ (router s) _ (pathname s) c Hd Hk Hc).
    rewrite Nat.eqb_refl, String.eqb_refl.
    destruct s as [r p d k [slot n tr]]. simpl in *. subst.
    rewrite app_nil_r. reflexivity.
  - destruct (Inv_unmounted_slot s HI Hd) as [Hk _].
    rewrite (step_Update_unmounted_eq s _ _ Hd).
    destruct s as [r p d k st]. simpl in *. subst. reflexivity.
Qed.

(** ** Navigation requests are forwarded in order *)

Lemma pushes_app (tr1 tr2 : list Call) :
  pushes (tr1 ++ tr2) = pushes tr1 ++ pushes tr2.
Proof.
  induction tr1 as [|x tr1 IH]; simpl; [reflexivity|].
  destruct x; simpl; rewrite IH; reflexivity.
Qed.

Lemma transition_pushes (s s' : State) (e : Event) :
  transition s e s' ->
  pushes (trace (store s')) = pushes (trace (store s)) ++ requests [e].
Proof.
  intros T. destruct T; simpl; rewrite ?pushes_app; simpl; rewrite ?app_nil_r;
    try reflexivity.
  destruct (Nat.eqb r (router s)), (String.eqb p (pathname s)); simpl;
    rewrite ?app_nil_r; reflexivity.
Qed.

Lemma run_pushes (es : list Event) (s s' : State) :
  Inv s -> run es s = Some s' ->
  pushes (trace (store s')) = pushes (trace (store s)) ++ requests es.
Proof.
  revert s. induction es as [|e es IH]; simpl; intros s HI Hrun.
  - injection Hrun as <-. rewrite app_nil_r. reflexivity.
  - destruct (step s e) as [s1|] eqn:E; [|discriminate Hrun].
    rewrite (IH s1 (step_Inv s s1 e HI E) Hrun).
    rewrite (transition_pushes s s1 e (step_transition s s1 e HI E)).
    rewrite <- app_assoc. f_equal. destruct e; reflexivity.
Qed.

(** X5.  Over a whole run, the paths passed to [router.push] are exactly the
    paths of the navigation requests the controllers made, in the same
    order: no request is dropped, repeated or reordered, and the component
    never navigates on its own. *)
Theorem pushes_are_the_requests
        (r0 : Router) (p0 : string) (es : list Event) (s : State) :
  run es (init r0 p0) = Some s ->
  pushes (trace (store s)) = requests es.
Proof.
  intros Hrun. exact (run_pushes es (init r0 p0) s (Inv_init r0 p0) Hrun).
Qed.

(** ** What a controller has been told *)

Lemma distinct_adjacent_snoc (l : list string) (q : string) :
  distinct_adjacent l ->
  (forall l0 p, l = l0 ++ [p] -> p <> q) ->
  distinct_adjacent (l ++ [q]).
Proof.
  induction l as [|a l IH]; simpl; [tauto|].
  destruct l as [|b t]; simpl.
  - intros _ H. split; [apply (H [] a); reflexivity | exact I].
  - intros [Hab Ht] H. split; [exact Hab|].
    apply IH; [exact Ht|].
    intros l0 p E. apply (H (a :: l0) p). rewrite E. reflexivity.
Qed.

(** An event that tells no controller anything. *)
Lemma Synced_quiet (s s' : State) :
  Synced s ->
  (forall c, reported c (trace (store s')) = reported c (trace (store s))) ->
  (forall c, controllerRef (store s') = Some c ->
             reported c (trace (store s)) = [] \/
             (controllerRef (store s) = Some c /\ pathname s' = pathname s)) ->
  Synced s'.
Proof.
  intros HS Hrep Hslot c. rewrite Hrep. destruct (HS c) as [Hd Hl].
  split; [exact Hd|]. intros Hc l p E.
  destruct (Hslot c Hc) as [Hnil|[Hc0 Hp]].
  - rewrite Hnil in E. destruct l; discriminate E.
  - rewrite Hp. exact (Hl Hc0 l p E).
Qed.

(** An event that tells controller [c], then in the slot, the path [p]. *)
Lemma Synced_told (s s' : State) (c : Controller) (p : string) :
  Synced s ->
  controllerRef (store s') = Some c -> pathname s' = p ->
  (forall c0, reported c0 (trace (store s'))
              = reported c0 (trace (store s)) ++ (if Nat.eqb c0 c then [p] else [])) ->
  (reported c (trace (store s)) = [] \/
   (controllerRef (store s) = Some c /\ pathname s <> p)) ->
  Synced s'.
Proof.
  intros HS Hc Hp Hrep Hold c0. rewrite Hrep. destruct (HS c0) as [Hd Hl].
  destruct (Nat.eqb_spec c0 c) as [->|Hne].
  - split.
    + apply distinct_adjacent_snoc; [exact Hd|].
      intros l0 q E. destruct Hold as [Hnil|[Hc0 Hneq]].
      * rewrite Hnil in E. destruct l0; discriminate E.
      * rewrite (Hl Hc0 l0 q E). exact Hneq.
    + intros _ l q E. apply app_inj_tail in E as [_ <-]. symmetry. exact Hp.
  - rewrite app_nil_r. split; [exact Hd|]. intros Hc0. congruence.
Qed.

Lemma Synced_transition (s s' : State) (e : Event) :
  Inv s -> Synced s -> transition s e s' -> Synced s'.
Proof.
  intros HI HS T. pose proof HI as [[I _] _].
  destruct T as [Hd|c Hd Hk Hc|r p Hd Hk Hc|c r p Hd Hk Hc|c r path Hcfg].
  - apply (Synced_told s _ (nextController (store s)) (pathname s) HS);
      try reflexivity.
    + intros c0. simpl. rewrite reported_app. simpl.
      destruct (Nat.eqb c0 (nextController (store s))); reflexivity.
    + left. apply (fresh_unreported _ _ I (le_n _)).
  - apply (Synced_quiet s _ HS).
    + intros c0. simpl. rewrite reported_app. simpl. apply app_nil_r.
    + intros c0 H0. discriminate H0.
  - apply (Synced_quiet s _ HS).
    + reflexivity.
    + intros c0 H0. simpl in H0. congruence.
  - destruct (Nat.eqb_spec r (router s)) as [Hr|Hr];
      destruct (String.eqb_spec p (pathname s)) as [Hp|Hp].
    + apply (Synced_quiet s _ HS).
      * intros c0. simpl. rewrite app_nil_r. reflexivity.
      * intros c0 H0. simpl in H0. right. split; [congruence | exact Hp].
    + apply (Synced_told s _ c p HS); try reflexivity.
      * intros c0. simpl. rewrite reported_app. simpl.
        destruct (Nat.eqb c0 c); reflexivity.
      * right. split; [exact Hc | congruence].
    + apply (Synced_quiet s _ HS).
      * intros c0. simpl. rewrite reported_app. simpl. apply app_nil_r.
      * intros c0 H0. simpl in H0. injection H0 as <-. left.
        apply (fresh_unreported _ _ I (le_n _)).
    + apply (Synced_told s _ (nextController (store s)) p HS); try reflexivity.
      * intros c0. simpl. rewrite reported_app. simpl.
        destruct (Nat.eqb c0 (nextController (store s))); reflexivity.
      * left. apply (fresh_unreported _ _ I (le_n _)).
  - apply (Synced_quiet s _ HS).
    + intros c0. simpl. rewrite reported_app. simpl. apply app_nil_r.
    + intros c0 H0. simpl in H0. right. split; [exact H0 | reflexivity].
Qed.

Lemma reachable_Synced (r0 : Router) (p0 : string) (es : list Event) (s : State) :
  run es (init r0 p0) = Some s -> Synced s.
Proof.
  apply (run_invariant Synced).
  - intros s1 e s2 HI HS T. exact (Synced_transition s1 s2 e HI HS T).
  - apply Inv_init.
  - intros c. simpl. split; [exact I|]. discriminate.
Qed.

(** X6.  The held controller is never left with an outdated path: either it
    has not been told any path yet, or the last path it was told is the
    current pathname. *)
Theorem held_controller_knows_current_path
        (r0 : Router) (p0 : string) (es : list Event) (s : State) (c : Controller) :
  run es (init r0 p0) = Some s ->
  controllerRef (store s) = Some c ->
  reported c (trace (store s)) = [] \/
  exists l, reported c (trace (store s)) = l ++ [pathname s].
Proof.
  intros Hrun Hc. destruct (reachable_Synced r0 p0 es s Hrun c) as [_ Hl].
  destruct (reported c (trace (store s))) as [|a l] eqn:E using rev_ind.
  - left. reflexivity.
  - right. exists l. rewrite (Hl Hc l a eq_refl). reflexivity.
Qed.

(** X7.  No controller, held or disposed, is told the same path twice in a
    row. *)
Theorem no_path_reported_twice_in_a_row
        (r0 : Router) (p0 : string) (es : list Event) (s : State) (c : Controller) :
  run es (init r0 p0) = Some s ->
  distinct_adjacent (reported c (trace (store s))).
Proof.
  intros Hrun. exact (proj1 (reachable_Synced r0 p0 es s Hrun c)).
Qed.

(** ** A handler stays bound to the router it captured *)

Lemma config_of_app_old (c : Controller) (cfg : Config) (tr1 tr2 : list Call) :
  config_of c tr1 = Some cfg -> config_of c (tr1 ++ tr2) = Some cfg.
Proof.
  induction tr1 as [|y tr1 IH]; simpl; [discriminate|].
  destruct y as [c' cfg'| | | |]; try exact IH.
  destruct (Nat.eqb c c'); [tauto | exact IH].
Qed.

(** X8.  After a render has replaced the router, and with it the controller,
    a navigation request that the replaced controller still makes is
    forwarded to the router its handler captured, the old one, not to the
    new router. *)
Theorem replaced_controller_pushes_on_old_router
        (r0 : Router) (p0 : string) (es : list Event) (s : State)
        (c : Controller) (r : Router) (p path : string) :
  run es (init r0 p0) = Some s ->
  controllerRef (store s) = Some c -> r <> router s ->
  exists s1 s2,
    step s (Update r p) = Some s1 /\
    router s1 = r /\
    controllerRef (store s1) <> Some c /\
    step s1 (Navigate c path) = Some s2 /\
    trace (store s2) = trace (store s1) ++ [RouterPush (router s) path].
Proof.
  intros Hrun Hc Hr. pose proof (reachable_Inv r0 p0 es s Hrun) as HI.
  destruct (mounted_of_slot s c HI Hc) as (Hd & Hk & Hcfg).
  pose proof (step_Update_mounted_eq s (router s) r (pathname s) p c Hd Hk Hc) as E.
  cbv zeta in E. apply Nat.eqb_neq in Hr. rewrite Hr in E.
  pose proof (slot_allocated s c HI Hc) as Hlt.
  eexists. eexists. split; [exact E|]. split; [reflexivity|].
  split; [simpl; intros [= H]; lia|].
  split; [apply step_Navigate_eq; simpl; apply config_of_app_old; exact Hcfg|].
  reflexivity.
Qed.

(** * The further properties at concrete runs *)

Lemma never_enables_click_to_edit_witness :
  exists s,
    run [Mount; Update 1 "/blog"; Navigate 1 "/x"; Unmount] (init 0 "/") = Some s /\
    forall c b, ~ In (EnableClickToEdit c b) (trace (store s)).
Proof.
  eexists. split; [reflexivity|].
  exact (never_enables_click_to_edit 0 "/"
           [Mount; Update 1 "/blog"; Navigate 1 "/x"; Unmount] _ eq_refl).
Defined.

Lemma router_and_path_change_witness :
  exists s',
    step (mkState 0 "/" (Some (0, "/")) (Some (CleanupClosure 0))
            (mkStore (Some 0) 1
               [CreateController 0 (navigating 0); SetCurrentPath 0 "/"]))
         (Update 1 "/blog") = Some s' /\
    trace (store s') =
      [CreateController 0 (navigating 0); SetCurrentPath 0 "/";
       Dispose 0; CreateController 1 (navigating 1); SetCurrentPath 1 "/blog"] /\
    controllerRef (store s') = Some 1 /\
    1 <> 0 /\
    reported 0 (trace (store s')) = ["/"].
Proof.
  apply (router_and_path_change 0 "/" [Mount] _ 0 1 "/blog" eq_refl eq_refl).
  - simpl. lia.
  - apply String.eqb_neq. reflexivity.
Defined.

Lemma unmount_disposes_held_controller_witness :
  step (mkState 0 "/" (Some (0, "/")) (Some (CleanupClosure 0))
          (mkStore (Some 0) 1
             [CreateController 0 (navigating 0); SetCurrentPath 0 "/"]))
       Unmount
  = Some (mkState 0 "/" None None
            (mkStore None 1
               [CreateController 0 (navigating 0); SetCurrentPath 0 "/"; Dispose 0])).
Proof.
  exact (unmount_disposes_held_controller 0 "/" [Mount] _ 0 eq_refl eq_refl).
Defined.

Lemma unchanged_render_is_silent_witness :
  exists s,
    run [Mount; Update 1 "/blog"] (init 0 "/") = Some s /\
    step s (Update (router s) (pathname s)) = Some s.
Proof.
  eexists. split; [reflexivity|].
  exact (unchanged_render_is_silent 0 "/" [Mount; Update 1 "/blog"] _ eq_refl).
Defined.

Lemma pushes_are_the_requests_witness :
  exists s,
    run [Mount; Navigate 0 "/a"; Update 1 "/a"; Navigate 0 "/b"; Navigate 1 "/c"]
        (init 0 "/") = Some s /\
    pushes (trace (store s)) = ["/a"; "/b"; "/c"].
Proof.
  eexists. split; [reflexivity|].
  exact (pushes_are_the_requests 0 "/"
           [Mount; Navigate 0 "/a"; Update 1 "/a"; Navigate 0 "/b"; Navigate 1 "/c"]
           _ eq_refl).
Defined.

Lemma held_controller_knows_current_path_witness :
  exists s,
    run [Mount; Update 0 "/blog"] (init 0 "/") = Some s /\
    (reported 0 (trace (store s)) = [] \/
     exists l, reported 0 (trace (store s)) = l ++ [pathname s]).
Proof.
  eexists. split; [reflexivity|].
  exact (held_controller_knows_current_path 0 "/" [Mount; Update 0 "/blog"] _ 0
           eq_refl eq_refl).
Defined.

Lemma no_path_reported_twice_in_a_row_witness :
  exists s,
    run [Mount; Update 0 "/blog"; Update 0 "/blog"; Update 0 "/"] (init 0 "/") = Some s /\
    distinct_adjacent (reported 0 (trace (store s))).
Proof.
  eexists. split; [reflexivity|].
  exact (no_path_reported_twice_in_a_row 0 "/"
           [Mount; Update 0 "/blog"; Update 0 "/blog"; Update 0 "/"] _ 0 eq_refl).
Defined.

Lemma replaced_controller_pushes_on_old_router_witness :
  exists s,
    run [Mount] (init 0 "/") = Some s /\
    exists s1 s2,
      step s (Update 1 "/") = Some s1 /\
      router s1 = 1 /\
      controllerRef (store s1) <> Some 0 /\
      step s1 (Navigate 0 "/products/42") = Some s2 /\
      trace (store s2) = trace (store s1) ++ [RouterPush (router s) "/products/42"].
Proof.
  eexists. split; [reflexivity|].
  apply (replaced_controller_pushes_on_old_router 0 "/" [Mount] _ 0 1 "/"
           "/products/42" eq_refl eq_refl).
  simpl. lia.
Defined.
